(** * UidMap: the uid -> package map of statsd, with its bounded history

    A shallow embedding of [cmds/statsd/src/packages/UidMap.cpp].

    The object state is a record; every member function is a function from
    states to states.  The member functions take the package names as the
    [std::string] that the source makes of its [String16] argument.

    [None] is the answer of a call that has no result: the eviction loop
    of [ensureBytesUsedBelowLimit], the only loop that is not bounded by
    the data it walks, carries fuel and answers [None] when the fuel runs
    out, and [updateMap] answers [None] when it would read past the end of
    one of its vectors.

    Not embedded: the listener registry ([mSubscribers], the broadcast
    loops), the calls into [StatsdStats], [printUidMap], the name lookups
    and the binder call of [OnConfigUpdated]; none of them writes a member
    that the functions below read. *)

From stdpp Require Import gmap strings pretty list.
From Stdlib Require Import ZArith Lia Strings.Byte.

#[local] Open Scope Z_scope.

(** ** Machine integers *)

(** [size_t] on the LP64 targets statsd is built for. *)
Definition size_t_modulus : Z := 2 ^ 64.
Definition to_size_t (z : Z) : Z := z mod size_t_modulus.

(** The C cast [(int)x] of a 64-bit value. *)
Definition to_int (z : Z) : Z := (z + 2 ^ 31) mod 2 ^ 32 - 2 ^ 31.

(** [unsigned int], the type of the counter in [appendUidMap]. *)
Definition to_uint (z : Z) : Z := z mod 2 ^ 32.

(** ** Records of UidMap.h *)

Record AppData := mkAppData { packageName : string; versionCode : Z }.

Module ChangeRecord.
Record t := mk {
  deletion : bool;
  timestampNs : Z;
  package : string;
  uid : Z;
  version : Z
}.
End ChangeRecord.

Module SnapshotRecord.
Record t := mk { timestampNs : Z; bytes : list byte }.
End SnapshotRecord.

(** What [appendUidMap] writes to the caller's stream: one [changes]
    message per selected change record, with the five fields as they are
    written, then one [snapshots] message per selected snapshot record. *)
Record Report := mkReport {
  changes : list ChangeRecord.t;
  snapshots : list SnapshotRecord.t
}.

(** ** What the file takes from other headers

    [kBytesTimestampField] and [kBytesChangeRecord] are constants of
    UidMap.h, [kMaxBytesUsedUidMap] one of StatsdStats.h, and
    [proto_package_info] stands for the bytes a [ProtoOutputStream] holds
    after one [FIELD_ID_SNAPSHOT_PACKAGE_INFO] message with a
    (name, version, uid) triple of fields per application has been written
    to it. *)
Class Externals := {
  kBytesTimestampField : Z;
  kBytesChangeRecord : Z;
  kMaxBytesUsedUidMap : Z;
  proto_package_info : list (string * Z * Z) → list byte
}.

(** The test of the three searches of [mMap]: an entry of the range of
    [u] whose [packageName] is [name]. *)
Definition is_app (u : Z) (name : string) (e : Z * AppData) : Prop :=
  e.1 = u ∧ packageName e.2 = name.

#[export] Instance is_app_dec u name e : Decision (is_app u name e).
Proof. unfold is_app. apply _. Defined.

(** [::tolower] in the C locale: the 26 capital letters of ASCII move to
    their small letters, every other [char] stays. *)
Definition tolower (c : Ascii.ascii) : Ascii.ascii :=
  let n := Ascii.N_of_ascii c in
  if decide (65 ≤ n ≤ 90)%N then Ascii.ascii_of_N (n + 32) else c.

(** [std::transform(begin, end, begin, ::tolower)] on a copy of the name. *)
Fixpoint normalizeAppName (appName : string) : string :=
  match appName with
  | EmptyString => EmptyString
  | String c rest => String (tolower c) (normalizeAppName rest)
  end.

Section UidMap.
Context `{Externals}.
(** [ConfigKey] (config/ConfigKey.h) is only compared and used as a key. *)
Context {ConfigKey : Type} `{EqDecision ConfigKey}.

(** [mMap] is an [unordered_multimap<int, AppData>] and
    [mLastUpdatePerConfigKey] an [unordered_map<ConfigKey, int64_t>]; the
    order of the lists below is the order in which the containers are
    iterated, which the standard leaves open.  A new entry of [mMap] goes
    to the end; a new key of [mLastUpdatePerConfigKey] goes to the front,
    where the hash table of libc++ links a node whose bucket is empty. *)
Record UidMap := mkUidMap {
  mMap : list (Z * AppData);
  mSnapshots : list SnapshotRecord.t;
  mChanges : list ChangeRecord.t;
  mBytesUsed : Z;
  mLastUpdatePerConfigKey : list (ConfigKey * Z);
  mIsolatedUidMap : gmap Z Z;
  maxBytesOverride : Z
}.

Definition set_mMap (m : list (Z * AppData)) (s : UidMap) : UidMap :=
  mkUidMap m (mSnapshots s) (mChanges s) (mBytesUsed s)
           (mLastUpdatePerConfigKey s) (mIsolatedUidMap s) (maxBytesOverride s).
Definition set_mSnapshots (l : list SnapshotRecord.t) (s : UidMap) : UidMap :=
  mkUidMap (mMap s) l (mChanges s) (mBytesUsed s)
           (mLastUpdatePerConfigKey s) (mIsolatedUidMap s) (maxBytesOverride s).
Definition set_mChanges (l : list ChangeRecord.t) (s : UidMap) : UidMap :=
  mkUidMap (mMap s) (mSnapshots s) l (mBytesUsed s)
           (mLastUpdatePerConfigKey s) (mIsolatedUidMap s) (maxBytesOverride s).
Definition set_mBytesUsed (b : Z) (s : UidMap) : UidMap :=
  mkUidMap (mMap s) (mSnapshots s) (mChanges s) b
           (mLastUpdatePerConfigKey s) (mIsolatedUidMap s) (maxBytesOverride s).
Definition set_mLastUpdatePerConfigKey (t : list (ConfigKey * Z)) (s : UidMap) : UidMap :=
  mkUidMap (mMap s) (mSnapshots s) (mChanges s) (mBytesUsed s)
           t (mIsolatedUidMap s) (maxBytesOverride s).
Definition set_mIsolatedUidMap (m : gmap Z Z) (s : UidMap) : UidMap :=
  mkUidMap (mMap s) (mSnapshots s) (mChanges s) (mBytesUsed s)
           (mLastUpdatePerConfigKey s) m (maxBytesOverride s).

(** [UidMap::UidMap() : mBytesUsed(0) {}]; [maxBytesOverride] is a public
    member that tests set before they use the object. *)
Definition UidMap_new (override : Z) : UidMap :=
  mkUidMap [] [] [] 0 [] ∅ override.

(** ** Lookups in [mMap] *)

Fixpoint hasApp_in (u : Z) (name : string) (m : list (Z * AppData)) : bool :=
  match m with
  | [] => false
  | e :: rest => if decide (is_app u name e) then true else hasApp_in u name rest
  end.

Definition hasApp (u : Z) (name : string) (s : UidMap) : bool :=
  hasApp_in u name (mMap s).

Fixpoint getAppVersion_in (u : Z) (name : string) (m : list (Z * AppData)) : Z :=
  match m with
  | [] => 0
  | e :: rest =>
      if decide (is_app u name e) then versionCode e.2
      else getAppVersion_in u name rest
  end.

Definition getAppVersion (u : Z) (name : string) (s : UidMap) : Z :=
  getAppVersion_in u name (mMap s).

(** ** The byte budget *)

Definition snapshot_cost (r : SnapshotRecord.t) : Z :=
  Z.of_nat (length (SnapshotRecord.bytes r)) + kBytesTimestampField.

(** [limit] of [ensureBytesUsedBelowLimit], a [size_t]. *)
Definition limit (s : UidMap) : Z :=
  if decide (maxBytesOverride s ≤ 0) then to_size_t kMaxBytesUsedUidMap
  else to_size_t (maxBytesOverride s).

(** One turn of the [while] body: drop the front snapshot if there is
    one, else the front change if there is one, else nothing. *)
Definition evict (s : UidMap) : UidMap :=
  match mSnapshots s with
  | r :: rest =>
      set_mSnapshots rest
        (set_mBytesUsed (to_size_t (mBytesUsed s - snapshot_cost r)) s)
  | [] =>
      match mChanges s with
      | _ :: rest =>
          set_mChanges rest
            (set_mBytesUsed (to_size_t (mBytesUsed s - kBytesChangeRecord)) s)
      | [] => s
      end
  end.

(** [while (mBytesUsed > limit) { ... }] with [fuel] turns allowed. *)
Fixpoint ensure_loop (fuel : nat) (s : UidMap) : option UidMap :=
  if decide (limit s < mBytesUsed s) then
    match fuel with
    | O => None
    | S fuel' => ensure_loop fuel' (evict s)
    end
  else Some s.

(** A turn that finds a record removes it and a turn that finds none
    changes nothing, so the loop either stops within as many turns as
    there are records or never does: [None] here is a loop that spins
    forever (see [ensure_loop_adequate]). *)
Definition ensureBytesUsedBelowLimit (s : UidMap) : option UidMap :=
  ensure_loop (length (mSnapshots s) + length (mChanges s)) s.

(** ** updateMap *)

(** The loop [for j < uid.size()] reads [versionCode[j]] and
    [packageName[j]]; reading past the end of either vector is undefined
    and is [None] here. *)
Fixpoint read_packages (uid : list Z) (versionCode : list Z) (packageName : list string)
  : option (list (Z * AppData)) :=
  match uid with
  | [] => Some []
  | u :: us =>
      match versionCode, packageName with
      | v :: vs, p :: ps => cons (u, mkAppData p v) <$> read_packages us vs ps
      | _, _ => None
      end
  end.

(** The three fields written per application. *)
Definition package_info (e : Z * AppData) : string * Z * Z :=
  (packageName e.2, to_int (versionCode e.2), to_int e.1).

Definition updateMap (timestamp : Z) (uid versionCode : list Z)
    (packageName : list string) (s : UidMap) : option UidMap :=
  entries ← read_packages uid versionCode packageName;
  let outData := proto_package_info (package_info <$> entries) in
  let record := SnapshotRecord.mk timestamp outData in
  ensureBytesUsedBelowLimit
    (set_mBytesUsed (to_size_t (mBytesUsed s + snapshot_cost record))
      (set_mSnapshots (mSnapshots s ++ [record])
        (set_mMap entries s))).

(** ** updateApp and removeApp *)

(** The search of [updateApp]: the first entry of the uid with this name
    gets the new version; [None] when there is none. *)
Fixpoint update_version (u : Z) (name : string) (v : Z) (m : list (Z * AppData))
  : option (list (Z * AppData)) :=
  match m with
  | [] => None
  | e :: rest =>
      if decide (is_app u name e) then Some ((e.1, mkAppData (packageName e.2) v) :: rest)
      else cons e <$> update_version u name v rest
  end.

Definition charge_change (r : ChangeRecord.t) (s : UidMap) : UidMap :=
  set_mBytesUsed (to_size_t (mBytesUsed s + kBytesChangeRecord))
    (set_mChanges (mChanges s ++ [r]) s).

Definition updateApp (timestamp : Z) (appName : string) (uid versionCode : Z)
    (s : UidMap) : option UidMap :=
  s1 ← ensureBytesUsedBelowLimit
         (charge_change (ChangeRecord.mk false timestamp appName uid versionCode) s);
  Some (match update_version uid appName versionCode (mMap s1) with
        | Some m => set_mMap m s1
        | None => set_mMap (mMap s1 ++ [(uid, mkAppData appName versionCode)]) s1
        end).

(** The search of [removeApp]: erase the first entry of the uid with
    this name, if any. *)
Fixpoint erase_app (u : Z) (name : string) (m : list (Z * AppData)) : list (Z * AppData) :=
  match m with
  | [] => []
  | e :: rest => if decide (is_app u name e) then rest else e :: erase_app u name rest
  end.

Definition removeApp (timestamp : Z) (app : string) (uid : Z) (s : UidMap)
  : option UidMap :=
  s1 ← ensureBytesUsedBelowLimit
         (charge_change (ChangeRecord.mk true timestamp app uid 0) s);
  Some (set_mMap (erase_app uid app (mMap s1)) s1).

(** ** Isolated uids *)

Definition assignIsolatedUid (isolatedUid parentUid : Z) (s : UidMap) : UidMap :=
  set_mIsolatedUidMap (<[isolatedUid := parentUid]> (mIsolatedUidMap s)) s.

Definition removeIsolatedUid (isolatedUid parentUid : Z) (s : UidMap) : UidMap :=
  match mIsolatedUidMap s !! isolatedUid with
  | Some _ => set_mIsolatedUidMap (delete isolatedUid (mIsolatedUidMap s)) s
  | None => s
  end.

Definition getHostUidOrSelf (uid : Z) (s : UidMap) : Z :=
  match mIsolatedUidMap s !! uid with
  | Some parent => parent
  | None => uid
  end.

Definition clearOutput (s : UidMap) : UidMap :=
  set_mBytesUsed 0 (set_mChanges [] (set_mSnapshots [] s)).

(** ** The table of last reports, [mLastUpdatePerConfigKey] *)

Fixpoint wm_find (key : ConfigKey) (t : list (ConfigKey * Z)) : option Z :=
  match t with
  | [] => None
  | (k, v) :: rest => if decide (k = key) then Some v else wm_find key rest
  end.

(** Reading [mLastUpdatePerConfigKey[key]]: [operator[]] adds the key with
    a value-initialised [0] when it is missing. *)
Definition wm_index (key : ConfigKey) (t : list (ConfigKey * Z))
  : Z * list (ConfigKey * Z) :=
  match wm_find key t with
  | Some v => (v, t)
  | None => (0, (key, 0) :: t)
  end.

(** Writing through the reference that [operator[]] gives for a key that
    is there: the entry keeps its place. *)
Fixpoint wm_replace (key : ConfigKey) (v : Z) (t : list (ConfigKey * Z))
  : list (ConfigKey * Z) :=
  match t with
  | [] => []
  | (k, x) :: rest =>
      if decide (k = key) then (k, v) :: rest else (k, x) :: wm_replace key v rest
  end.

(** [mLastUpdatePerConfigKey[key] = v]. *)
Definition wm_assign (key : ConfigKey) (v : Z) (t : list (ConfigKey * Z))
  : list (ConfigKey * Z) :=
  match wm_find key t with
  | Some _ => wm_replace key v t
  | None => (key, v) :: t
  end.

Fixpoint wm_erase (key : ConfigKey) (t : list (ConfigKey * Z)) : list (ConfigKey * Z) :=
  match t with
  | [] => []
  | (k, x) :: rest => if decide (k = key) then rest else (k, x) :: wm_erase key rest
  end.

(** The body of the loop of [getMinimumTimestampNs]. *)
Definition min_step (m : Z) (it : ConfigKey * Z) : Z :=
  if decide (m = 0) then it.2 else if decide (it.2 < m) then it.2 else m.

Definition min_of_table (t : list (ConfigKey * Z)) : Z := fold_left min_step t 0.

Definition getMinimumTimestampNs (s : UidMap) : Z :=
  min_of_table (mLastUpdatePerConfigKey s).

(** ** appendUidMap *)

(** What the loop over [mChanges] writes of a record: [uid] and
    [version] go through [(int)]. *)
Definition written_change (record : ChangeRecord.t) : ChangeRecord.t :=
  ChangeRecord.mk (ChangeRecord.deletion record) (ChangeRecord.timestampNs record)
                  (ChangeRecord.package record) (to_int (ChangeRecord.uid record))
                  (to_int (ChangeRecord.version record)).

(** The loop over [mChanges]; every turn reads
    [mLastUpdatePerConfigKey[key]]. *)
Fixpoint append_changes (key : ConfigKey) (l : list ChangeRecord.t)
    (t : list (ConfigKey * Z)) : list ChangeRecord.t * list (ConfigKey * Z) :=
  match l with
  | [] => ([], t)
  | record :: rest =>
      let '(last, t1) := wm_index key t in
      let '(out, t2) := append_changes key rest t1 in
      if decide (last < ChangeRecord.timestampNs record)
      then (written_change record :: out, t2)
      else (out, t2)
  end.

(** The loop over [mSnapshots].  [size] is [mSnapshots.size()],
    [atLeastOneSnapshot] and [count] are the two locals; [count] moves
    only in a turn that writes a snapshot.  The table is read only when
    the left operand of [||] is false. *)
Fixpoint append_snapshots (key : ConfigKey) (size : Z) (l : list SnapshotRecord.t)
    (atLeastOneSnapshot : bool) (count : Z) (t : list (ConfigKey * Z))
  : list SnapshotRecord.t * list (ConfigKey * Z) :=
  match l with
  | [] => ([], t)
  | record :: rest =>
      if bool_decide (count = to_size_t (size - 1)) && negb atLeastOneSnapshot then
        let '(out, t') := append_snapshots key size rest true (to_uint (count + 1)) t in
        (record :: out, t')
      else
        let '(last, t1) := wm_index key t in
        if decide (last < SnapshotRecord.timestampNs record) then
          let '(out, t') := append_snapshots key size rest true (to_uint (count + 1)) t1 in
          (record :: out, t')
        else append_snapshots key size rest atLeastOneSnapshot count t1
  end.

(** The two erase loops that run when the minimum has moved forward. *)
Fixpoint purge_snapshots (cutoff_nanos : Z) (l : list SnapshotRecord.t) (bytesUsed : Z)
  : list SnapshotRecord.t * Z :=
  match l with
  | [] => ([], bytesUsed)
  | r :: rest =>
      if decide (SnapshotRecord.timestampNs r < cutoff_nanos) then
        purge_snapshots cutoff_nanos rest (to_size_t (bytesUsed - snapshot_cost r))
      else
        let '(kept, b) := purge_snapshots cutoff_nanos rest bytesUsed in (r :: kept, b)
  end.

Fixpoint purge_changes (cutoff_nanos : Z) (l : list ChangeRecord.t) (bytesUsed : Z)
  : list ChangeRecord.t * Z :=
  match l with
  | [] => ([], bytesUsed)
  | r :: rest =>
      if decide (ChangeRecord.timestampNs r < cutoff_nanos) then
        purge_changes cutoff_nanos rest (to_size_t (bytesUsed - kBytesChangeRecord))
      else
        let '(kept, b) := purge_changes cutoff_nanos rest bytesUsed in (r :: kept, b)
  end.

Definition purge (cutoff_nanos : Z) (s : UidMap) : UidMap :=
  let '(snaps, b1) := purge_snapshots cutoff_nanos (mSnapshots s) (mBytesUsed s) in
  let '(chgs, b2) := purge_changes cutoff_nanos (mChanges s) b1 in
  set_mBytesUsed b2 (set_mChanges chgs (set_mSnapshots snaps s)).

(** [if (mSnapshots.size() == 0) { ... }]: a snapshot of [mMap] as it is
    now, stamped with the time of the call. *)
Definition fresh_snapshot (timestamp : Z) (s : UidMap) : SnapshotRecord.t :=
  SnapshotRecord.mk timestamp (proto_package_info (package_info <$> mMap s)).

Definition resynthesize (timestamp : Z) (s : UidMap) : UidMap :=
  match mSnapshots s with
  | [] =>
      let r := fresh_snapshot timestamp s in
      set_mBytesUsed
        (to_size_t (mBytesUsed s +
                    (kBytesTimestampField + Z.of_nat (length (SnapshotRecord.bytes r)))))
        (set_mSnapshots [r] s)
  | _ :: _ => s
  end.

(** The state of the table when [prevMin] is taken, with what the two
    loops have written. *)
Definition append_select (key : ConfigKey) (s : UidMap) : Report * list (ConfigKey * Z) :=
  let '(cs, t1) := append_changes key (mChanges s) (mLastUpdatePerConfigKey s) in
  let '(ss, t2) :=
    append_snapshots key (Z.of_nat (length (mSnapshots s))) (mSnapshots s) false 0 t1 in
  (mkReport cs ss, t2).

Definition prevMin (key : ConfigKey) (s : UidMap) : Z :=
  min_of_table (append_select key s).2.

Definition newMin (timestamp : Z) (key : ConfigKey) (s : UidMap) : Z :=
  min_of_table (wm_assign key timestamp (append_select key s).2).

Definition appendUidMap (timestamp : Z) (key : ConfigKey) (s : UidMap) : Report * UidMap :=
  let '(report, t) := append_select key s in
  let prevMin := min_of_table t in
  let s1 := set_mLastUpdatePerConfigKey (wm_assign key timestamp t) s in
  let newMin := getMinimumTimestampNs s1 in
  (report,
   if decide (prevMin < newMin) then
     let cutoff_nanos := newMin in
     resynthesize timestamp (purge cutoff_nanos s1)
   else s1).

(** ** Configurations coming and going *)

(** The request for a snapshot that [OnConfigUpdated] sends to
    statscompanion when [mSnapshots] is empty is answered, if at all, by a
    later [updateMap]. *)
Definition OnConfigUpdated (key : ConfigKey) (s : UidMap) : UidMap :=
  set_mLastUpdatePerConfigKey (wm_assign key (-1) (mLastUpdatePerConfigKey s)) s.

Definition OnConfigRemoved (key : ConfigKey) (s : UidMap) : UidMap :=
  set_mLastUpdatePerConfigKey (wm_erase key (mLastUpdatePerConfigKey s)) s.

(** ** Calls and runs *)

Inductive Call :=
  | CallUpdateMap (timestamp : Z) (uid versionCode : list Z) (packageName : list string)
  | CallUpdateApp (timestamp : Z) (app : string) (uid versionCode : Z)
  | CallRemoveApp (timestamp : Z) (app : string) (uid : Z)
  | CallAppendUidMap (timestamp : Z) (key : ConfigKey)
  | CallOnConfigUpdated (key : ConfigKey)
  | CallOnConfigRemoved (key : ConfigKey)
  | CallAssignIsolatedUid (isolatedUid parentUid : Z)
  | CallRemoveIsolatedUid (isolatedUid parentUid : Z)
  | CallClearOutput.

Definition call (c : Call) (s : UidMap) : option UidMap :=
  match c with
  | CallUpdateMap ts us vs ps => updateMap ts us vs ps s
  | CallUpdateApp ts app u v => updateApp ts app u v s
  | CallRemoveApp ts app u => removeApp ts app u s
  | CallAppendUidMap ts key => Some (appendUidMap ts key s).2
  | CallOnConfigUpdated key => Some (OnConfigUpdated key s)
  | CallOnConfigRemoved key => Some (OnConfigRemoved key s)
  | CallAssignIsolatedUid i p => Some (assignIsolatedUid i p s)
  | CallRemoveIsolatedUid i p => Some (removeIsolatedUid i p s)
  | CallClearOutput => Some (clearOutput s)
  end.

Fixpoint run (cs : list Call) (s : UidMap) : option UidMap :=
  match cs with
  | [] => Some s
  | c :: rest => s' ← call c s; run rest s'
  end.

(** States that calls lead to from a new object. *)
Definition reachable (s : UidMap) : Prop :=
  ∃ override cs, run cs (UidMap_new override) = Some s.

(** ** Predicates of the statements *)

Definition snapshots_cost (l : list SnapshotRecord.t) : Z :=
  foldr (λ r acc, snapshot_cost r + acc) 0 l.

Definition changes_cost (l : list ChangeRecord.t) : Z :=
  Z.of_nat (length l) * kBytesChangeRecord.

(** [mBytesUsed] is, as a [size_t], what the retained records add up to. *)
Definition accounted (s : UidMap) : Prop :=
  mBytesUsed s = to_size_t (snapshots_cost (mSnapshots s) + changes_cost (mChanges s)).

Definition retained (s : UidMap) : nat := (length (mSnapshots s) + length (mChanges s))%nat.

(** The state with the [i] oldest snapshots and the [j] oldest changes
    gone and their cost taken off the counter. *)
Definition evicted (i j : nat) (s : UidMap) : UidMap :=
  set_mBytesUsed
    (to_size_t (mBytesUsed s - snapshots_cost (take i (mSnapshots s))
                - Z.of_nat j * kBytesChangeRecord))
    (set_mChanges (drop j (mChanges s)) (set_mSnapshots (drop i (mSnapshots s)) s)).

(** What reading [mLastUpdatePerConfigKey[key]] can do to the table:
    nothing, or add the key with [0] when it was missing. *)
Definition touched (key : ConfigKey) (t t' : list (ConfigKey * Z)) : Prop :=
  t' = t ∨ (wm_find key t = None ∧ t' = (key, 0) :: t).

(** [m] is the least of the values the table holds. *)
Definition is_min_watermark (m : Z) (t : list (ConfigKey * Z)) : Prop :=
  (∃ k, (k, m) ∈ t) ∧ ∀ k v, (k, v) ∈ t → m ≤ v.

Definition no_zero (t : list (ConfigKey * Z)) : Prop := Forall (λ kv, kv.2 ≠ 0) t.

(** A call keeps the last report of [key] in place and not below [w]. *)
Definition keeps_watermark (key : ConfigKey) (w : Z) (c : Call) : Prop :=
  match c with
  | CallAppendUidMap timestamp k => k = key → w ≤ timestamp
  | CallOnConfigUpdated k => k = key → w ≤ -1
  | CallOnConfigRemoved k => k ≠ key
  | _ => True
  end.

Definition app_key (e : Z * AppData) : Z * string := (e.1, packageName e.2).

Definition unique_apps (s : UidMap) : Prop := NoDup (app_key <$> mMap s).

(** The pairs a call of [updateMap] brings are all different. *)
Definition distinct_packages (c : Call) : Prop :=
  match c with
  | CallUpdateMap _ uid _ packageName => NoDup (zip uid packageName)
  | _ => True
  end.

(** ** The other lookups *)

(** [getAppNamesFromUidLocked]: the names of the range of [uid], put into
    a [std::set<string>] one after the other. *)
Fixpoint getAppNamesFromUid_in (uid : Z) (returnNormalized : bool)
    (m : list (Z * AppData)) (names : gset string) : gset string :=
  match m with
  | [] => names
  | e :: rest =>
      if decide (e.1 = uid) then
        getAppNamesFromUid_in uid returnNormalized rest
          ({[ if returnNormalized then normalizeAppName (packageName e.2)
              else packageName e.2 ]} ∪ names)
      else getAppNamesFromUid_in uid returnNormalized rest names
  end.

Definition getAppNamesFromUid (uid : Z) (returnNormalized : bool) (s : UidMap)
  : gset string :=
  getAppNamesFromUid_in uid returnNormalized (mMap s) ∅.

(** [getAppUid]: one pass over the whole of [mMap]. *)
Fixpoint getAppUid_in (package : string) (m : list (Z * AppData)) (results : gset Z)
  : gset Z :=
  match m with
  | [] => results
  | e :: rest =>
      if decide (packageName e.2 = package)
      then getAppUid_in package rest ({[ e.1 ]} ∪ results)
      else getAppUid_in package rest results
  end.

Definition getAppUid (package : string) (s : UidMap) : gset Z :=
  getAppUid_in package (mMap s) ∅.

Definition getBytesUsed (s : UidMap) : Z := mBytesUsed s.

(** What [updateMap] makes of three vectors that are long enough. *)
Definition packages_of (uid versionCode : list Z) (packageName : list string)
  : list (Z * AppData) :=
  zip_with (λ u pv, (u, mkAppData pv.1 pv.2)) uid (zip packageName versionCode).

(** The calls that write [mIsolatedUidMap]. *)
Definition writes_isolated (c : Call) : Prop :=
  match c with
  | CallAssignIsolatedUid _ _ | CallRemoveIsolatedUid _ _ => True
  | _ => False
  end.

End UidMap.

(** ** An instance for worked examples *)

Definition byte_of_Z (z : Z) : byte := default x00 (Byte.of_N (Z.to_N (z mod 256))).

Fixpoint varint (fuel : nat) (z : Z) : list byte :=
  match fuel with
  | O => []
  | S fuel' =>
      if decide (z < 128) then [byte_of_Z z]
      else byte_of_Z (z mod 128 + 128) :: varint fuel' (z / 128)
  end.

Definition wire_varint (z : Z) : list byte := varint 10 (z mod 2 ^ 64).

Definition wire_tag (field wire_type : Z) : list byte := wire_varint (field * 8 + wire_type).

Definition wire_bytes (field : Z) (body : list byte) : list byte :=
  wire_tag field 2 ++ wire_varint (Z.of_nat (length body)) ++ body.

Definition wire_int32 (field v : Z) : list byte := wire_tag field 0 ++ wire_varint v.

Definition wire_package (e : string * Z * Z) : list byte :=
  let '(name, v, u) := e in
  wire_bytes 1 (String.list_byte_of_string name) ++ wire_int32 2 v ++ wire_int32 3 u.

Definition wire_package_info (entries : list (string * Z * Z)) : list byte :=
  wire_bytes 2 (concat (wire_package <$> entries)).

(** Modelled from the spec: the wire encoding library and the headers that
    give the fixed timestamp overhead, the fixed size of a change record
    and the default budget are not among the sources.  The encoding is the
    protocol-buffer wire format of a message of (name, version, uid)
    fields; the constants are 10 bytes, 56 bytes and 50 KiB.  No theorem
    that is stated for every [Externals] depends on these choices. *)
#[export] Instance example_externals : Externals := {|
  kBytesTimestampField := 10;
  kBytesChangeRecord := 56;
  kMaxBytesUsedUidMap := 50 * 1024;
  proto_package_info := wire_package_info
|}.

(** ** States and runs of the worked examples *)

Definition example_snapshot : SnapshotRecord.t :=
  SnapshotRecord.mk 110
    (proto_package_info [("com.a"%string, 1, 10001); ("com.b"%string, 2, 10002)]).

Definition example_change (timestamp : Z) : ChangeRecord.t :=
  ChangeRecord.mk false timestamp "com.a" 10001 3.

(** Two applications, one snapshot (26 + 10 bytes) and three changes
    (56 bytes each) under a budget of 210 bytes, and two configurations,
    last served at 100 and at 300. *)
Definition example_state : UidMap (ConfigKey := Z) :=
  mkUidMap [(10001, mkAppData "com.a" 3); (10002, mkAppData "com.b" 2)]
           [example_snapshot]
           [example_change 120; example_change 160; example_change 200]
           204 [(1, 100); (2, 300)] ∅ 210.

(** [example_state] as [updateApp] has it when it enters the eviction
    loop: one more change appended and charged. *)
Definition example_charged : UidMap (ConfigKey := Z) :=
  charge_change (example_change 250) example_state.

(** Nothing retained, and a counter one byte above the default budget. *)
Definition stuck_state : UidMap (ConfigKey := Z) :=
  mkUidMap [] [] [] (50 * 1024 + 1) [] ∅ 0.

(** Two full maps at 100 and 200, two configurations, the first of them
    served at 300. *)
Definition two_snapshots_run : list (Call (ConfigKey := Z)) :=
  [CallUpdateMap 100 [10001; 10002] [1; 2] ["com.a"; "com.b"]%string;
   CallUpdateMap 200 [10001] [1] ["com.a"]%string;
   CallOnConfigUpdated 1;
   CallOnConfigUpdated 2;
   CallAppendUidMap 300 1].

(** A full map of 3000 applications, com.example.app0 under uid 10000 to
    com.example.app2999 under uid 12999, then one configuration. *)
Definition large_map_run : list (Call (ConfigKey := Z)) :=
  [CallUpdateMap 1 ((λ i, 10000 + Z.of_nat i) <$> seq 0 3000) (replicate 3000 1)
     ((λ i : nat, "com.example.app" +:+ pretty i) <$> seq 0 3000);
   CallOnConfigUpdated 1].

(** Two configurations; the second, which the table iterates first, is
    served at time 0, before the change at 150 is recorded. *)
Definition zero_watermark_run : list (Call (ConfigKey := Z)) :=
  [CallUpdateApp 100 "com.a" 10001 1;
   CallOnConfigUpdated 1;
   CallOnConfigUpdated 2;
   CallAppendUidMap 0 2;
   CallUpdateApp 150 "com.a" 10001 2].

(** A full map that names the same uid and package twice. *)
Definition duplicate_map_run : list (Call (ConfigKey := Z)) :=
  [CallUpdateMap 100 [10001; 10001] [1; 2] ["com.a"; "com.a"]%string].

Definition distinct_run : list (Call (ConfigKey := Z)) :=
  [CallUpdateMap 100 [10001; 10002] [1; 2] ["com.a"; "com.b"]%string;
   CallUpdateApp 200 "com.a" 10001 3;
   CallUpdateApp 210 "com.c" 10001 1;
   CallRemoveApp 220 "com.b" 10002].

Definition distinct_run_end : UidMap (ConfigKey := Z) :=
  default (UidMap_new 0) (run distinct_run (UidMap_new 0)).

(** ** The listeners

    [mSubscribers] is a [std::set] of weak pointers, here the set of the
    addresses they hold; [promote] tells which of them still lead to an
    object.  The member is read and written by the three functions below
    and by nothing else. *)

Definition addListener (producer : Z) (mSubscribers : gset Z) : gset Z :=
  {[ producer ]} ∪ mSubscribers.

Definition removeListener (producer : Z) (mSubscribers : gset Z) : gset Z :=
  mSubscribers ∖ {[ producer ]}.

(** One turn of the loop of [getListenerListCopyLocked]: a live listener
    is copied to [output], a dead one is erased from the set. *)
Definition copy_or_erase (promote : Z → bool) (acc : list Z * gset Z) (weakIt : Z)
  : list Z * gset Z :=
  if promote weakIt then (acc.1 ++ [weakIt], acc.2)
  else (acc.1, acc.2 ∖ {[ weakIt ]}).

Definition getListenerListCopyLocked (promote : Z → bool) (mSubscribers : gset Z)
    (output : list Z) : list Z * gset Z :=
  foldl (copy_or_erase promote) (output, mSubscribers) (elements mSubscribers).

(** ** The table of reserved ids *)

Definition sAidToUidMapping : list (string * Z) :=
  [("AID_ROOT", 0); ("AID_SYSTEM", 1000); ("AID_RADIO", 1001);
   ("AID_BLUETOOTH", 1002); ("AID_GRAPHICS", 1003); ("AID_INPUT", 1004);
   ("AID_AUDIO", 1005); ("AID_CAMERA", 1006); ("AID_LOG", 1007);
   ("AID_COMPASS", 1008); ("AID_MOUNT", 1009); ("AID_WIFI", 1010);
   ("AID_ADB", 1011); ("AID_INSTALL", 1012); ("AID_MEDIA", 1013);
   ("AID_DHCP", 1014); ("AID_SDCARD_RW", 1015); ("AID_VPN", 1016);
   ("AID_KEYSTORE", 1017); ("AID_USB", 1018); ("AID_DRM", 1019);
   ("AID_MDNSR", 1020); ("AID_GPS", 1021); ("AID_MEDIA_RW", 1023);
   ("AID_MTP", 1024); ("AID_DRMRPC", 1026); ("AID_NFC", 1027);
   ("AID_SDCARD_R", 1028); ("AID_CLAT", 1029); ("AID_LOOP_RADIO", 1030);
   ("AID_MEDIA_DRM", 1031); ("AID_PACKAGE_INFO", 1032);
   ("AID_SDCARD_PICS", 1033); ("AID_SDCARD_AV", 1034);
   ("AID_SDCARD_ALL", 1035); ("AID_LOGD", 1036); ("AID_SHARED_RELRO", 1037);
   ("AID_DBUS", 1038); ("AID_TLSDATE", 1039); ("AID_MEDIA_EX", 1040);
   ("AID_AUDIOSERVER", 1041); ("AID_METRICS_COLL", 1042);
   ("AID_METRICSD", 1043); ("AID_WEBSERV", 1044); ("AID_DEBUGGERD", 1045);
   ("AID_MEDIA_CODEC", 1046); ("AID_CAMERASERVER", 1047);
   ("AID_FIREWALL", 1048); ("AID_TRUNKS", 1049); ("AID_NVRAM", 1050);
   ("AID_DNS", 1051); ("AID_DNS_TETHER", 1052); ("AID_WEBVIEW_ZYGOTE", 1053);
   ("AID_VEHICLE_NETWORK", 1054); ("AID_MEDIA_AUDIO", 1055);
   ("AID_MEDIA_VIDEO", 1056); ("AID_MEDIA_IMAGE", 1057);
   ("AID_TOMBSTONED", 1058); ("AID_MEDIA_OBB", 1059); ("AID_ESE", 1060);
   ("AID_OTA_UPDATE", 1061); ("AID_AUTOMOTIVE_EVS", 1062);
   ("AID_LOWPAN", 1063); ("AID_HSM", 1064); ("AID_RESERVED_DISK", 1065);
   ("AID_STATSD", 1066); ("AID_INCIDENTD", 1067); ("AID_SHELL", 2000);
   ("AID_CACHE", 2001); ("AID_DIAG", 2002)]%string.

(** ** More states of the worked examples *)

(** A configuration on a new object, before anything else has happened. *)
Definition registered_state : UidMap (ConfigKey := Z) :=
  OnConfigUpdated 1 (UidMap_new 0).

(** [example_state] with the second configuration not yet served. *)
Definition waiting_state : UidMap (ConfigKey := Z) :=
  set_mLastUpdatePerConfigKey [(1, 100); (2, -1)] example_state.

(** Under a budget of 210 bytes: a full map of two applications at 110
    (26 + 10 bytes) and three upgrades (56 bytes each), 204 bytes in all;
    the charge of one more change brings the counter to 260. *)
Definition tight_run : list (Call (ConfigKey := Z)) :=
  [CallUpdateMap 110 [10001; 10002] [1; 2] ["com.a"; "com.b"]%string;
   CallUpdateApp 120 "com.a" 10001 3;
   CallUpdateApp 160 "com.a" 10001 4;
   CallUpdateApp 200 "com.a" 10001 5].

Definition tight_run_end : UidMap (ConfigKey := Z) :=
  default (UidMap_new 210) (run tight_run (UidMap_new 210)).

Definition two_snapshots_run_end : UidMap (ConfigKey := Z) :=
  default (UidMap_new 0) (run two_snapshots_run (UidMap_new 0)).

(** Two full maps, at 100 and at 200, and in between, at 150, the report
    of the first of two configurations; the second is never served, so
    nothing is purged. *)
Definition mixed_snapshots_run : list (Call (ConfigKey := Z)) :=
  [CallUpdateMap 100 [10001; 10002] [1; 2] ["com.a"; "com.b"]%string;
   CallOnConfigUpdated 1;
   CallOnConfigUpdated 2;
   CallAppendUidMap 150 1;
   CallUpdateMap 200 [10001] [1] ["com.a"]%string].

Definition mixed_snapshots_run_end : UidMap (ConfigKey := Z) :=
  default (UidMap_new 0) (run mixed_snapshots_run (UidMap_new 0)).

(** One change whose uid and version do not fit an [int]. *)
Definition wide_change_state : UidMap (ConfigKey := Z) :=
  mkUidMap [] [] [ChangeRecord.mk false 100 "com.a" (2 ^ 32 + 8) (2 ^ 31)] 56 [(1, -1)] ∅ 0.

(** * Properties *)

Section Budget.
Context `{Externals}.
Context {ConfigKey : Type} `{EqDecision ConfigKey}.
Implicit Types s : UidMap (ConfigKey := ConfigKey).

Lemma to_size_t_range z : 0 ≤ to_size_t z < size_t_modulus.
Proof. unfold to_size_t. apply Z.mod_pos_bound. reflexivity. Qed.

Lemma to_size_t_small z : 0 ≤ z < size_t_modulus → to_size_t z = z.
Proof. intros Hz. unfold to_size_t. by apply Z.mod_small. Qed.

Lemma to_size_t_idemp z : to_size_t (to_size_t z) = to_size_t z.
Proof. unfold to_size_t. apply Z.mod_mod. discriminate. Qed.

Lemma to_size_t_sub_l a b : to_size_t (to_size_t a - b) = to_size_t (a - b).
Proof. unfold to_size_t. apply Zminus_mod_idemp_l. Qed.

Lemma to_size_t_add_l a b : to_size_t (to_size_t a + b) = to_size_t (a + b).
Proof. unfold to_size_t. apply Zplus_mod_idemp_l. Qed.

Lemma limit_nonneg s : 0 ≤ limit s.
Proof. unfold limit. case_decide; apply to_size_t_range. Qed.

Lemma snapshots_cost_app l1 l2 :
  snapshots_cost (l1 ++ l2) = snapshots_cost l1 + snapshots_cost l2.
Proof. induction l1 as [|r l1 IH]; simpl; lia. Qed.

Lemma changes_cost_app l1 l2 : changes_cost (l1 ++ l2) = changes_cost l1 + changes_cost l2.
Proof. unfold changes_cost. rewrite length_app. lia. Qed.

Lemma limit_evict s : limit (evict s) = limit s.
Proof. unfold evict. destruct (mSnapshots s), (mChanges s); reflexivity. Qed.

Lemma accounted_evict s : accounted s → accounted (evict s).
Proof.
  unfold accounted, evict. intros Hs.
  destruct (mSnapshots s) as [|r rest] eqn:Hsn.
  - destruct (mChanges s) as [|c rest] eqn:Hch; simpl.
    + rewrite Hsn, Hch. exact Hs.
    + rewrite Hsn, Hs, to_size_t_sub_l. f_equal.
      unfold changes_cost. simpl length. simpl. lia.
  - simpl. rewrite Hs, to_size_t_sub_l. f_equal. simpl. lia.
Qed.

(** A turn either removes one record or finds nothing to remove. *)
Lemma evict_cases s :
  (retained s = 0%nat ∧ evict s = s) ∨ (retained s = S (retained (evict s))).
Proof.
  unfold retained, evict.
  destruct (mSnapshots s) as [|r rest] eqn:Hsn;
    [destruct (mChanges s) as [|c rest] eqn:Hch|]; simpl.
  - left. done.
  - right. by rewrite Hsn.
  - right. done.
Qed.

(** With nothing retained and the counter above the limit, the loop
    never leaves. *)
Lemma ensure_loop_stuck fuel s :
  retained s = 0%nat → limit s < mBytesUsed s → ensure_loop fuel s = None.
Proof.
  intros Hr Hover. induction fuel as [|fuel IH]; simpl.
  - by rewrite decide_True.
  - rewrite decide_True by done.
    destruct (evict_cases s) as [[_ ->]|Hs]; [exact IH | lia].
Qed.

(** Fuel beyond the number of retained records changes nothing. *)
Lemma ensure_loop_adequate fuel s s' :
  ensure_loop fuel s = Some s' → ensureBytesUsedBelowLimit s = Some s'.
Proof.
  unfold ensureBytesUsedBelowLimit. fold (retained s).
  revert s. induction fuel as [|fuel IH]; intros s; simpl.
  - case_decide; [done|]. intros [= <-].
    destruct (retained s); simpl; by rewrite decide_False.
  - case_decide as Hover.
    + intros Hrun. destruct (evict_cases s) as [[Hr He]|Hs].
      * rewrite He in Hrun. by rewrite ensure_loop_stuck in Hrun.
      * rewrite Hs. simpl. rewrite decide_True by done. by apply IH.
    + intros [= <-]. destruct (retained s); simpl; by rewrite decide_False.
Qed.

Lemma ensureBytesUsedBelowLimit_None s :
  ensureBytesUsedBelowLimit s = None ↔ ∀ fuel, ensure_loop fuel s = None.
Proof.
  split.
  - intros Hn fuel. destruct (ensure_loop fuel s) as [s'|] eqn:Hrun; [|done].
    apply ensure_loop_adequate in Hrun. congruence.
  - intros Hall. apply Hall.
Qed.

(** What a run of the loop is: some number of turns, each of them taken
    above the limit, and a state at or under the limit at the end. *)
Lemma ensure_loop_turns fuel s s' :
  ensure_loop fuel s = Some s' →
  ∃ n, (n ≤ fuel)%nat ∧ s' = Nat.iter n evict s ∧
       mBytesUsed s' ≤ limit s ∧
       ∀ m, (m < n)%nat → limit s < mBytesUsed (Nat.iter m evict s).
Proof.
  revert s. induction fuel as [|fuel IH]; intros s; simpl.
  - case_decide; [done|]. intros [= <-]. exists 0%nat. simpl.
    split_and!; [lia|done|lia|intros; lia].
  - case_decide as Hover.
    + intros Hrun. destruct (IH _ Hrun) as (n & Hn & -> & Hle & Hbefore).
      exists (S n). rewrite limit_evict in Hle.
      split_and!; [lia| |done|].
      * by rewrite Nat.iter_succ_r.
      * intros [|m] Hm; simpl; [done|].
        rewrite <- Nat.iter_succ, Nat.iter_succ_r.
        rewrite <- (limit_evict s). apply Hbefore. lia.
    + intros [= <-]. exists 0%nat. simpl.
      split_and!; [lia|done|lia|intros; lia].
Qed.

Lemma accounted_iter_evict n s : accounted s → accounted (Nat.iter n evict s).
Proof. intros Hs. induction n; simpl; [done|]. by apply accounted_evict. Qed.

(** From an accounted state the loop comes to an end. *)
Lemma ensure_loop_terminates s :
  accounted s → ∃ s', ensureBytesUsedBelowLimit s = Some s'.
Proof.
  unfold ensureBytesUsedBelowLimit. fold (retained s).
  remember (retained s) as n eqn:Hn. revert s Hn.
  induction n as [|n IH]; intros s Hn Hacc; simpl.
  - case_decide as Hover; [|eauto]. exfalso.
    unfold retained in Hn.
    destruct (mSnapshots s) eqn:Hsn, (mChanges s) eqn:Hch; try discriminate.
    unfold accounted in Hacc. rewrite Hsn, Hch in Hacc.
    pose proof (limit_nonneg s). rewrite Hacc in Hover.
    unfold changes_cost in Hover. simpl in Hover. unfold to_size_t in Hover.
    rewrite Z.mod_0_l in Hover by discriminate. lia.
  - case_decide as Hover; [|eauto].
    apply IH; [|by apply accounted_evict].
    destruct (evict_cases s) as [[Hr _]|Hs]; lia.
Qed.

Lemma ensure_accounted s s' :
  accounted s → ensureBytesUsedBelowLimit s = Some s' → accounted s'.
Proof.
  intros Hacc Hrun. apply ensure_loop_turns in Hrun as (n & _ & -> & _).
  by apply accounted_iter_evict.
Qed.

Lemma ensure_below_limit s s' :
  ensureBytesUsedBelowLimit s = Some s' → mBytesUsed s' ≤ limit s'.
Proof.
  intros Hrun. apply ensure_loop_turns in Hrun as (n & _ & -> & Hle & _).
  assert (Hl : ∀ k, limit (Nat.iter k evict s) = limit s).
  { induction k as [|k IHk]; simpl; [done|]. by rewrite limit_evict. }
  by rewrite Hl.
Qed.

(** ** The erase loops of [appendUidMap] *)

Lemma purge_snapshots_kept cutoff l b :
  (purge_snapshots cutoff l b).1 = filter (λ r, cutoff ≤ SnapshotRecord.timestampNs r) l.
Proof.
  revert b. induction l as [|r l IH]; intros b; simpl; [done|].
  case_decide as Hold.
  - rewrite IH, filter_cons_False by lia. done.
  - specialize (IH b). destruct (purge_snapshots cutoff l b) as [kept b'].
    simpl in *. rewrite filter_cons_True by lia. by rewrite IH.
Qed.

Lemma purge_changes_kept cutoff l b :
  (purge_changes cutoff l b).1 = filter (λ r, cutoff ≤ ChangeRecord.timestampNs r) l.
Proof.
  revert b. induction l as [|r l IH]; intros b; simpl; [done|].
  case_decide as Hold.
  - rewrite IH, filter_cons_False by lia. done.
  - specialize (IH b). destruct (purge_changes cutoff l b) as [kept b'].
    simpl in *. rewrite filter_cons_True by lia. by rewrite IH.
Qed.

Lemma purge_snapshots_bytes cutoff l b :
  0 ≤ b < size_t_modulus →
  (purge_snapshots cutoff l b).2 =
  to_size_t (b - (snapshots_cost l - snapshots_cost (purge_snapshots cutoff l b).1)).
Proof.
  revert b. induction l as [|r l IH]; intros b Hb; simpl.
  - replace (b - (0 - 0)) with b by lia. by rewrite to_size_t_small.
  - case_decide as Hold.
    + rewrite IH by apply to_size_t_range.
      rewrite to_size_t_sub_l. f_equal.
      rewrite !purge_snapshots_kept. lia.
    + specialize (IH b Hb).
      destruct (purge_snapshots cutoff l b) as [kept b']. simpl in *.
      rewrite IH. f_equal. lia.
Qed.

Lemma purge_changes_bytes cutoff l b :
  0 ≤ b < size_t_modulus →
  (purge_changes cutoff l b).2 =
  to_size_t (b - (changes_cost l - changes_cost (purge_changes cutoff l b).1)).
Proof.
  revert b. induction l as [|r l IH]; intros b Hb; simpl.
  - unfold changes_cost. simpl. rewrite Z.sub_0_r. by rewrite to_size_t_small.
  - case_decide as Hold.
    + rewrite IH by apply to_size_t_range.
      rewrite to_size_t_sub_l. f_equal.
      rewrite !purge_changes_kept. unfold changes_cost. simpl length. lia.
    + specialize (IH b Hb).
      destruct (purge_changes cutoff l b) as [kept b']. simpl in *.
      rewrite IH. f_equal. unfold changes_cost. simpl length. lia.
Qed.

Lemma purge_snapshots_range cutoff l b :
  0 ≤ b < size_t_modulus → 0 ≤ (purge_snapshots cutoff l b).2 < size_t_modulus.
Proof. intros Hb. rewrite purge_snapshots_bytes by done. apply to_size_t_range. Qed.

Lemma mSnapshots_purge cutoff s :
  mSnapshots (purge cutoff s) =
  filter (λ r, cutoff ≤ SnapshotRecord.timestampNs r) (mSnapshots s).
Proof.
  unfold purge. rewrite <- (purge_snapshots_kept cutoff _ (mBytesUsed s)).
  destruct (purge_snapshots _ _ _) as [snaps b1].
  destruct (purge_changes _ _ _) as [chgs b2]. done.
Qed.

Lemma mChanges_purge cutoff s :
  mChanges (purge cutoff s) =
  filter (λ r, cutoff ≤ ChangeRecord.timestampNs r) (mChanges s).
Proof.
  unfold purge. destruct (purge_snapshots _ _ _) as [snaps b1].
  rewrite <- (purge_changes_kept cutoff _ b1).
  destruct (purge_changes _ _ _) as [chgs b2]. done.
Qed.

Lemma mMap_purge cutoff s : mMap (purge cutoff s) = mMap s.
Proof.
  unfold purge. destruct (purge_snapshots _ _ _) as [snaps b1].
  destruct (purge_changes _ _ _) as [chgs b2]. done.
Qed.

Lemma accounted_range s : accounted s → 0 ≤ mBytesUsed s < size_t_modulus.
Proof. intros ->. apply to_size_t_range. Qed.

Lemma accounted_purge cutoff s : accounted s → accounted (purge cutoff s).
Proof.
  intros Hacc. pose proof (accounted_range _ Hacc) as Hr.
  unfold accounted. rewrite mSnapshots_purge, mChanges_purge.
  unfold purge.
  pose proof (purge_snapshots_bytes cutoff (mSnapshots s) _ Hr) as Hb1.
  pose proof (purge_snapshots_range cutoff (mSnapshots s) _ Hr) as Hr1.
  pose proof (purge_snapshots_kept cutoff (mSnapshots s) (mBytesUsed s)) as Hk1.
  destruct (purge_snapshots _ _ _) as [snaps b1]. simpl in *.
  pose proof (purge_changes_bytes cutoff (mChanges s) _ Hr1) as Hb2.
  pose proof (purge_changes_kept cutoff (mChanges s) b1) as Hk2.
  destruct (purge_changes _ _ _) as [chgs b2]. simpl in *.
  subst snaps chgs. rewrite Hb2, Hb1, to_size_t_sub_l.
  set (a := snapshots_cost (mSnapshots s) - _).
  set (c := changes_cost (mChanges s) - _).
  replace (mBytesUsed s - a - c) with (mBytesUsed s - (a + c)) by lia.
  rewrite Hacc, to_size_t_sub_l. f_equal. lia.
Qed.

Lemma accounted_resynthesize timestamp s : accounted s → accounted (resynthesize timestamp s).
Proof.
  unfold resynthesize, accounted. intros Hacc.
  destruct (mSnapshots s) eqn:Hsn; [|by rewrite Hsn].
  simpl. rewrite Hacc, to_size_t_add_l. f_equal.
  unfold snapshot_cost. simpl. lia.
Qed.

Lemma accounted_appendUidMap timestamp key s :
  accounted s → accounted (appendUidMap timestamp key s).2.
Proof.
  intros Hacc. unfold appendUidMap.
  destruct (append_select key s) as [report t]. simpl.
  case_decide; [|done].
  apply accounted_resynthesize, accounted_purge. done.
Qed.

Lemma accounted_charge_change r s : accounted s → accounted (charge_change r s).
Proof.
  unfold accounted, charge_change. simpl. intros ->.
  rewrite to_size_t_add_l, changes_cost_app. f_equal.
  unfold changes_cost at 3. simpl. lia.
Qed.

Lemma accounted_charge_snapshot entries r s :
  accounted s →
  accounted (set_mBytesUsed (to_size_t (mBytesUsed s + snapshot_cost r))
               (set_mSnapshots (mSnapshots s ++ [r]) (set_mMap entries s))).
Proof.
  unfold accounted. simpl. intros ->.
  rewrite to_size_t_add_l, snapshots_cost_app. f_equal. simpl. lia.
Qed.

Lemma accounted_call c s s' : accounted s → call c s = Some s' → accounted s'.
Proof.
  intros Hacc. destruct c; simpl.
  - unfold updateMap. destruct (read_packages _ _ _) as [entries|]; simpl; [|done].
    apply ensure_accounted, accounted_charge_snapshot, Hacc.
  - unfold updateApp.
    destruct (ensureBytesUsedBelowLimit _) as [s1|] eqn:Hrun; simpl; [|done].
    apply ensure_accounted in Hrun; [|by apply accounted_charge_change].
    intros [= <-]. by destruct (update_version _ _ _ _).
  - unfold removeApp.
    destruct (ensureBytesUsedBelowLimit _) as [s1|] eqn:Hrun; simpl; [|done].
    apply ensure_accounted in Hrun; [|by apply accounted_charge_change].
    by intros [= <-].
  - intros [= <-]. by apply accounted_appendUidMap.
  - by intros [= <-].
  - by intros [= <-].
  - by intros [= <-].
  - intros [= <-]. unfold removeIsolatedUid. by destruct (_ !! _).
  - intros [= <-]. unfold accounted, clearOutput. simpl. done.
Qed.

Lemma run_invariant (P : UidMap (ConfigKey := ConfigKey) → Prop) :
  (∀ c s s', P s → call c s = Some s' → P s') →
  ∀ cs s s', P s → run cs s = Some s' → P s'.
Proof.
  intros Hstep cs. induction cs as [|c cs IH]; intros s s' Hs; simpl.
  - by intros [= <-].
  - destruct (call c s) as [s1|] eqn:Hc; simpl; [|done].
    apply IH. by eapply Hstep.
Qed.

Lemma reachable_accounted s : reachable s → accounted s.
Proof.
  intros (override & cs & Hrun).
  eapply (run_invariant accounted); [apply accounted_call| |exact Hrun].
  reflexivity.
Qed.

(** ** The order of evictions *)

Lemma UidMap_eq s1 s2 :
  mMap s1 = mMap s2 → mSnapshots s1 = mSnapshots s2 → mChanges s1 = mChanges s2 →
  mBytesUsed s1 = mBytesUsed s2 →
  mLastUpdatePerConfigKey s1 = mLastUpdatePerConfigKey s2 →
  mIsolatedUidMap s1 = mIsolatedUidMap s2 → maxBytesOverride s1 = maxBytesOverride s2 →
  s1 = s2.
Proof. destruct s1, s2. simpl. by intros -> -> -> -> -> -> ->. Qed.

Lemma evicted_0 s : 0 ≤ mBytesUsed s < size_t_modulus → evicted 0 0 s = s.
Proof.
  intros Hr. apply UidMap_eq; simpl; rewrite ?drop_0; try done.
  rewrite to_size_t_small; lia.
Qed.

(** The first turns take the snapshots, oldest first; the changes follow,
    oldest first, once no snapshot is left. *)
Lemma iter_evict n s :
  0 ≤ mBytesUsed s < size_t_modulus → (n ≤ retained s)%nat →
  Nat.iter n evict s =
  evicted (n `min` length (mSnapshots s)) (n - length (mSnapshots s)) s.
Proof.
  intros Hr. unfold retained. induction n as [|n IH]; intros Hn.
  - simpl. by rewrite evicted_0.
  - rewrite Nat.iter_succ, IH by lia. clear IH.
    destruct (decide (n < length (mSnapshots s))%nat) as [Hlt|Hge].
    + destruct (lookup_lt_is_Some_2 _ _ Hlt) as [r Hlook].
      replace (n `min` length (mSnapshots s))%nat with n by lia.
      replace (S n `min` length (mSnapshots s))%nat with (S n) by lia.
      replace (n - length (mSnapshots s))%nat with 0%nat by lia.
      replace (S n - length (mSnapshots s))%nat with 0%nat by lia.
      unfold evict, evicted. simpl.
      rewrite (drop_S _ _ _ Hlook), (take_S_r _ _ _ Hlook). simpl.
      apply UidMap_eq; simpl; try done.
      rewrite to_size_t_sub_l, snapshots_cost_app. f_equal. simpl. lia.
    + replace (n `min` length (mSnapshots s))%nat with (length (mSnapshots s)) by lia.
      replace (S n `min` length (mSnapshots s))%nat with (length (mSnapshots s)) by lia.
      assert (Hlt : (n - length (mSnapshots s) < length (mChanges s))%nat) by lia.
      destruct (lookup_lt_is_Some_2 _ _ Hlt) as [c Hlook].
      replace (S n - length (mSnapshots s))%nat
        with (S (n - length (mSnapshots s))) by lia.
      unfold evict, evicted. simpl.
      rewrite drop_all, (drop_S _ _ _ Hlook). simpl.
      apply UidMap_eq; simpl; try done.
      rewrite to_size_t_sub_l. f_equal. lia.
Qed.

(** ** What the three mutators leave behind *)

Lemma updateMap_below_limit timestamp uid versionCode packageName s s' :
  updateMap timestamp uid versionCode packageName s = Some s' →
  mBytesUsed s' ≤ limit s'.
Proof.
  unfold updateMap. destruct (read_packages _ _ _) as [entries|]; simpl; [|done].
  apply ensure_below_limit.
Qed.

Lemma updateApp_below_limit timestamp app uid versionCode s s' :
  updateApp timestamp app uid versionCode s = Some s' → mBytesUsed s' ≤ limit s'.
Proof.
  unfold updateApp.
  destruct (ensureBytesUsedBelowLimit _) as [s1|] eqn:Hrun; simpl; [|done].
  apply ensure_below_limit in Hrun. intros [= <-].
  by destruct (update_version _ _ _ _).
Qed.

Lemma removeApp_below_limit timestamp app uid s s' :
  removeApp timestamp app uid s = Some s' → mBytesUsed s' ≤ limit s'.
Proof.
  unfold removeApp.
  destruct (ensureBytesUsedBelowLimit _) as [s1|] eqn:Hrun; simpl; [|done].
  apply ensure_below_limit in Hrun. by intros [= <-].
Qed.

Lemma updateApp_returns timestamp app uid versionCode s :
  accounted s → is_Some (updateApp timestamp app uid versionCode s).
Proof.
  intros Hacc. unfold updateApp.
  destruct (ensure_loop_terminates (charge_change
    (ChangeRecord.mk false timestamp app uid versionCode) s)) as [s1 ->];
    [by apply accounted_charge_change|]. simpl. eauto.
Qed.

Lemma removeApp_returns timestamp app uid s :
  accounted s → is_Some (removeApp timestamp app uid s).
Proof.
  intros Hacc. unfold removeApp.
  destruct (ensure_loop_terminates (charge_change
    (ChangeRecord.mk true timestamp app uid 0) s)) as [s1 ->];
    [by apply accounted_charge_change|]. simpl. eauto.
Qed.

Lemma updateMap_returns timestamp uid versionCode packageName s :
  accounted s → is_Some (read_packages uid versionCode packageName) →
  is_Some (updateMap timestamp uid versionCode packageName s).
Proof.
  intros Hacc [entries Hread]. unfold updateMap. rewrite Hread. simpl.
  destruct (ensure_loop_terminates
    (set_mBytesUsed
       (to_size_t (mBytesUsed s + snapshot_cost
          (SnapshotRecord.mk timestamp (proto_package_info (package_info <$> entries)))))
       (set_mSnapshots (mSnapshots s ++
          [SnapshotRecord.mk timestamp (proto_package_info (package_info <$> entries))])
          (set_mMap entries s)))) as [s1 Hs1]; [by apply accounted_charge_snapshot|].
  rewrite Hs1. eauto.
Qed.

Lemma erase_app_absent u name m : hasApp_in u name m = false → erase_app u name m = m.
Proof.
  induction m as [|e m IH]; simpl; [done|].
  case_decide; [done|]. intros Hm. by rewrite IH.
Qed.

(** ** The claims about the budget *)

(** C3, as amended: the eviction loop of [ensureBytesUsedBelowLimit] comes
    to an end from every state whose byte counter is the sum of the costs
    of the retained records, as it is in every state that calls lead to
    ([reachable_accounted]) and after each charge; it needs no more turns
    than there are records. *)
Theorem C3_eviction_loop_terminates s :
  accounted s →
  ∃ fuel s', (fuel ≤ retained s)%nat ∧ ensure_loop fuel s = Some s'.
Proof.
  intros Hacc. destruct (ensure_loop_terminates s Hacc) as [s' Hrun].
  exists (retained s), s'. split; [lia|exact Hrun].
Qed.

(** Once it is called above the limit, the loop removes records oldest
    first, snapshots before changes.  It ends in the state with the [i]
    oldest snapshots
    and [j] oldest changes gone, a change only once no snapshot is left,
    each snapshot taking its size plus [kBytesTimestampField] off the
    counter and each change [kBytesChangeRecord]; the counter is then at
    or under the limit, and it was above it after every shorter run of
    evictions in this order. *)
Lemma ensure_evicts_oldest_first s :
  accounted s →
  ∃ i j : nat,
    ensureBytesUsedBelowLimit s = Some (evicted i j s) ∧
    (i ≤ length (mSnapshots s))%nat ∧ (j ≤ length (mChanges s))%nat ∧
    ((0 < j)%nat → i = length (mSnapshots s)) ∧
    mBytesUsed (evicted i j s) ≤ limit s ∧
    ∀ i' j' : nat,
      (i' + j' < i + j)%nat → (i' ≤ length (mSnapshots s))%nat →
      ((0 < j')%nat → i' = length (mSnapshots s)) →
      limit s < mBytesUsed (evicted i' j' s).
Proof.
  intros Hacc. pose proof (accounted_range _ Hacc) as Hr.
  destruct (ensure_loop_terminates s Hacc) as [s' Hrun].
  pose proof Hrun as Hturns. unfold ensureBytesUsedBelowLimit in Hturns.
  apply ensure_loop_turns in Hturns as (n & Hn & -> & Hle & Hbefore).
  fold (retained s) in Hn. unfold retained in Hn.
  exists (n `min` length (mSnapshots s))%nat, (n - length (mSnapshots s))%nat.
  rewrite <- iter_evict by (unfold retained; lia).
  split_and!; [done|lia|lia|lia|done|].
  intros i' j' Hlt Hi' Hj'.
  specialize (Hbefore (i' + j')%nat ltac:(lia)).
  rewrite iter_evict in Hbefore by (unfold retained; lia).
  destruct j' as [|j'].
  - by replace (i' + 0)%nat with i' in Hbefore by lia;
      replace (i' `min` length (mSnapshots s))%nat with i' in Hbefore by lia;
      replace (i' - length (mSnapshots s))%nat with 0%nat in Hbefore by lia.
  - rewrite Hj' in * by lia.
    by replace ((length (mSnapshots s) + S j') `min` length (mSnapshots s))%nat
        with (length (mSnapshots s)) in Hbefore by lia;
      replace (length (mSnapshots s) + S j' - length (mSnapshots s))%nat
        with (S j') in Hbefore by lia.
Qed.

(** C9: [removeApp] for a (uid, package) that [mMap] does not hold
    returns, leaves [mMap] as it was, and does to the logs and to the
    counter what it does in any case: the deletion record is appended and
    charged, the eviction loop runs, and the outcome for [mChanges],
    [mSnapshots] and [mBytesUsed] is the same whatever [mMap] holds. *)
Theorem C9_removeApp_absent timestamp app uid s :
  accounted s → hasApp uid app s = false →
  ∃ s1 s',
    ensureBytesUsedBelowLimit
      (set_mBytesUsed (to_size_t (mBytesUsed s + kBytesChangeRecord))
         (set_mChanges (mChanges s ++ [ChangeRecord.mk true timestamp app uid 0]) s))
      = Some s1 ∧
    removeApp timestamp app uid s = Some s' ∧
    mMap s' = mMap s ∧
    mChanges s' = mChanges s1 ∧ mSnapshots s' = mSnapshots s1 ∧
    mBytesUsed s' = mBytesUsed s1 ∧
    ∀ m, ∃ s'',
      removeApp timestamp app uid (set_mMap m s) = Some s'' ∧
      mMap s'' = erase_app uid app m ∧
      mChanges s'' = mChanges s' ∧ mSnapshots s'' = mSnapshots s' ∧
      mBytesUsed s'' = mBytesUsed s'.
Proof.
  intros Hacc Habsent.
  pose (r := ChangeRecord.mk true timestamp app uid 0).
  destruct (ensure_loop_terminates (charge_change r s)) as [s1 Hs1];
    [by apply accounted_charge_change|].
  assert (Hmap : mMap s1 = mMap s).
  { apply ensure_loop_turns in Hs1 as (n & _ & -> & _).
    clear. induction n as [|n IH]; simpl; [done|].
    rewrite <- IH. unfold evict.
    destruct (mSnapshots _); [destruct (mChanges _)|]; done. }
  exists s1, (set_mMap (erase_app uid app (mMap s1)) s1).
  split_and!; try done.
  - unfold removeApp. fold r. rewrite Hs1. done.
  - simpl. rewrite Hmap. by apply erase_app_absent.
  - intros m.
    assert (Hm : ∀ fuel s0 s0',
      ensure_loop fuel s0 = Some s0' →
      ensure_loop fuel (set_mMap m s0) = Some (set_mMap m s0')).
    { clear. induction fuel as [|fuel IH]; intros s0 s0'; simpl.
      - change (limit (set_mMap m s0)) with (limit s0).
        case_decide; [done|]. by intros [= <-].
      - change (limit (set_mMap m s0)) with (limit s0).
        case_decide; [|by intros [= <-]].
        intros Hrun. apply IH in Hrun.
        replace (evict (set_mMap m s0)) with (set_mMap m (evict s0)); [done|].
        unfold evict. simpl.
        destruct (mSnapshots s0); [destruct (mChanges s0)|]; done. }
    exists (set_mMap (erase_app uid app m) s1).
    split_and!; try done.
    unfold removeApp. fold r.
    change (charge_change r (set_mMap m s)) with (set_mMap m (charge_change r s)).
    unfold ensureBytesUsedBelowLimit in *.
    change (mSnapshots (set_mMap m (charge_change r s)))
      with (mSnapshots (charge_change r s)).
    change (mChanges (set_mMap m (charge_change r s)))
      with (mChanges (charge_change r s)).
    rewrite (Hm _ _ _ Hs1). done.
Qed.

End Budget.

Section Reconcile.
Context `{Externals}.
Context {ConfigKey : Type} `{EqDecision ConfigKey}.
Implicit Types s : UidMap (ConfigKey := ConfigKey).
Implicit Types t : list (ConfigKey * Z).

(** ** The table of last reports *)

Lemma wm_find_replace_eq key v t :
  is_Some (wm_find key t) → wm_find key (wm_replace key v t) = Some v.
Proof.
  induction t as [|[k x] t IH]; simpl; [by intros [? ?]|].
  destruct (decide (k = key)) as [->|Hk]; simpl.
  - by rewrite decide_True.
  - by rewrite decide_False.
Qed.

Lemma wm_find_replace_ne key k v t :
  k ≠ key → wm_find key (wm_replace k v t) = wm_find key t.
Proof.
  intros Hne. induction t as [|[k' x] t IH]; simpl; [done|].
  destruct (decide (k' = k)) as [->|Hk]; simpl.
  - by rewrite !decide_False.
  - by rewrite IH.
Qed.

Lemma wm_find_assign_eq key v t : wm_find key (wm_assign key v t) = Some v.
Proof.
  unfold wm_assign. destruct (wm_find key t) as [w|] eqn:Hf.
  - apply wm_find_replace_eq. rewrite Hf. eauto.
  - simpl. by rewrite decide_True.
Qed.

Lemma wm_find_assign_ne key k v t :
  k ≠ key → wm_find key (wm_assign k v t) = wm_find key t.
Proof.
  intros Hne. unfold wm_assign. destruct (wm_find k t) as [w|] eqn:Hf.
  - by apply wm_find_replace_ne.
  - simpl. by rewrite decide_False.
Qed.

Lemma wm_find_erase_ne key k t : k ≠ key → wm_find key (wm_erase k t) = wm_find key t.
Proof.
  intros Hne. induction t as [|[k' x] t IH]; simpl; [done|].
  destruct (decide (k' = k)) as [->|Hk]; simpl.
  - by rewrite decide_False.
  - by rewrite IH.
Qed.

Lemma wm_find_app_l key t t' w : wm_find key t = Some w → wm_find key (t ++ t') = Some w.
Proof.
  induction t as [|[k x] t IH]; simpl; [done|]. case_decide; [done|]. apply IH.
Qed.

Lemma wm_find_head key t v : wm_find key ((key, v) :: t) = Some v.
Proof. simpl. by rewrite decide_True. Qed.

Lemma wm_find_cons_other key k t v w :
  wm_find k t = None → wm_find key t = Some w → wm_find key ((k, v) :: t) = Some w.
Proof.
  intros Hn Hf. simpl. destruct (decide (k = key)) as [->|Hk]; [congruence|done].
Qed.

Lemma wm_find_elem_of key t w : wm_find key t = Some w → (key, w) ∈ t.
Proof.
  induction t as [|[k x] t IH]; simpl; [done|].
  case_decide as Hk.
  - intros [= ->]. subst. apply elem_of_cons. by left.
  - intros Hf. apply elem_of_cons. right. by apply IH.
Qed.

Lemma elem_of_wm_replace key v t k x :
  (k, x) ∈ wm_replace key v t → (k = key ∧ x = v) ∨ (k, x) ∈ t.
Proof.
  induction t as [|[k' x'] t IH]; simpl; [by right|].
  case_decide as Hk.
  - rewrite !elem_of_cons. intros [[= -> ->]|Hin]; [by left|by right; right].
  - rewrite !elem_of_cons. intros [Heq|Hin]; [by right; left|].
    destruct (IH Hin); [by left|by right; right].
Qed.

Lemma elem_of_wm_assign key v t k x :
  (k, x) ∈ wm_assign key v t → (k = key ∧ x = v) ∨ (k, x) ∈ t.
Proof.
  unfold wm_assign. destruct (wm_find key t) as [w|].
  - apply elem_of_wm_replace.
  - rewrite elem_of_cons. intros [[= -> ->]|Hin]; [by left|by right].
Qed.

Lemma touched_registered key t t' w : wm_find key t = Some w → touched key t t' → t' = t.
Proof. intros Hf [->|[Hn _]]; [done|congruence]. Qed.

Lemma touched_find k key t t' w :
  touched k t t' → wm_find key t = Some w → wm_find key t' = Some w.
Proof. intros [->|[Hn ->]] Hf; [done|]. by apply wm_find_cons_other. Qed.

Lemma wm_index_touched key t :
  touched key t (wm_index key t).2 ∧ is_Some (wm_find key (wm_index key t).2).
Proof.
  unfold wm_index. destruct (wm_find key t) as [v|] eqn:Hf; simpl.
  - split; [by left|]. rewrite Hf. eauto.
  - split; [by right|]. exists 0. apply wm_find_head.
Qed.

Lemma touched_trans key t t1 t2 :
  touched key t t1 → is_Some (wm_find key t1) ∨ t1 = t → touched key t1 t2 →
  touched key t t2.
Proof.
  intros H1 Hs [->|[Hn ->]]; [done|].
  destruct Hs as [[v Hv]| ->]; [congruence|]. by right.
Qed.

Lemma append_changes_touched key l t :
  touched key t (append_changes key l t).2 ∧
  (l ≠ [] → is_Some (wm_find key (append_changes key l t).2)).
Proof.
  revert t. induction l as [|r l IH]; intros t; simpl.
  - split; [by left|done].
  - destruct (wm_index_touched key t) as [Ht Hs].
    destruct (wm_index key t) as [last t1]. simpl in *.
    destruct (IH t1) as [Ht1 _].
    destruct (append_changes key l t1) as [out t2]. simpl in *.
    assert (Hgoal : touched key t t2 ∧ is_Some (wm_find key t2)).
    { split; [eapply touched_trans; eauto|].
      destruct Hs as [v Hv]. exists v. by eapply touched_find. }
    destruct Hgoal. case_decide; simpl; split; auto.
Qed.

Lemma append_snapshots_touched key size l a c t :
  touched key t (append_snapshots key size l a c t).2.
Proof.
  revert a c t. induction l as [|r l IH]; intros a c t; simpl; [by left|].
  destruct (bool_decide _ && negb a).
  - specialize (IH true (to_uint (c + 1)) t).
    by destruct (append_snapshots key size l true _ t).
  - destruct (wm_index_touched key t) as [Ht Hs].
    destruct (wm_index key t) as [last t1]. simpl in *.
    case_decide.
    + specialize (IH true (to_uint (c + 1)) t1).
      destruct (append_snapshots key size l true _ t1). simpl in *.
      eapply touched_trans; eauto.
    + eapply touched_trans; eauto.
Qed.

Lemma append_select_touched key s :
  touched key (mLastUpdatePerConfigKey s) (append_select key s).2.
Proof.
  unfold append_select.
  destruct (append_changes_touched key (mChanges s) (mLastUpdatePerConfigKey s))
    as [Ht Hs].
  destruct (append_changes key _ _) as [cs t1]. simpl in *.
  pose proof (append_snapshots_touched key (Z.of_nat (length (mSnapshots s)))
                (mSnapshots s) false 0 t1) as Ht2.
  destruct (append_snapshots key _ _ _ _ t1) as [ss t2]. simpl in *.
  destruct Ht as [->|[Hn ->]]; [done|].
  destruct (mChanges s) as [|r l]; [|by eapply touched_trans; [by right|left; by apply Hs|]].
  destruct Ht2 as [->|[Hn2 ->]]; [by right|].
  rewrite wm_find_head in Hn2. congruence.
Qed.

Lemma appendUidMap_state timestamp key s :
  (appendUidMap timestamp key s).2 =
  let s1 := set_mLastUpdatePerConfigKey
              (wm_assign key timestamp (append_select key s).2) s in
  if decide (prevMin key s < newMin timestamp key s)
  then resynthesize timestamp (purge (newMin timestamp key s) s1)
  else s1.
Proof.
  unfold appendUidMap, prevMin, newMin.
  destruct (append_select key s) as [report t]. done.
Qed.

Lemma table_resynthesize timestamp s :
  mLastUpdatePerConfigKey (resynthesize timestamp s) = mLastUpdatePerConfigKey s.
Proof. unfold resynthesize. by destruct (mSnapshots s). Qed.

Lemma table_purge cutoff s :
  mLastUpdatePerConfigKey (purge cutoff s) = mLastUpdatePerConfigKey s.
Proof.
  unfold purge. destruct (purge_snapshots _ _ _) as [snaps b1].
  by destruct (purge_changes _ _ _) as [chgs b2].
Qed.

Lemma table_appendUidMap timestamp key s :
  mLastUpdatePerConfigKey (appendUidMap timestamp key s).2 =
  wm_assign key timestamp (append_select key s).2.
Proof.
  rewrite appendUidMap_state. simpl. case_decide; [|done].
  by rewrite table_resynthesize, table_purge.
Qed.

Lemma table_evict s : mLastUpdatePerConfigKey (evict s) = mLastUpdatePerConfigKey s.
Proof. unfold evict. destruct (mSnapshots s); [destruct (mChanges s)|]; done. Qed.

Lemma mMap_evict s : mMap (evict s) = mMap s.
Proof. unfold evict. destruct (mSnapshots s); [destruct (mChanges s)|]; done. Qed.

Lemma ensure_frame s s' :
  ensureBytesUsedBelowLimit s = Some s' →
  mLastUpdatePerConfigKey s' = mLastUpdatePerConfigKey s ∧ mMap s' = mMap s.
Proof.
  intros Hrun. apply ensure_loop_turns in Hrun as (n & _ & -> & _).
  induction n as [|n [IH1 IH2]]; simpl; [done|].
  by rewrite table_evict, mMap_evict.
Qed.

Lemma table_call_other c s s' :
  match c with
  | CallAppendUidMap _ _ | CallOnConfigUpdated _ | CallOnConfigRemoved _ => False
  | _ => True
  end →
  call c s = Some s' → mLastUpdatePerConfigKey s' = mLastUpdatePerConfigKey s.
Proof.
  destruct c; simpl; try done; intros _.
  - unfold updateMap. destruct (read_packages _ _ _) as [entries|]; simpl; [|done].
    intros Hrun. by apply ensure_frame in Hrun as [-> _].
  - unfold updateApp.
    destruct (ensureBytesUsedBelowLimit _) as [s1|] eqn:Hrun; simpl; [|done].
    apply ensure_frame in Hrun as [Ht _]. intros [= <-].
    by destruct (update_version _ _ _ _).
  - unfold removeApp.
    destruct (ensureBytesUsedBelowLimit _) as [s1|] eqn:Hrun; simpl; [|done].
    apply ensure_frame in Hrun as [Ht _]. by intros [= <-].
  - by intros [= <-].
  - intros [= <-]. unfold removeIsolatedUid. by destruct (_ !! _).
  - by intros [= <-].
Qed.

(** ** The minimum of the table *)

Lemma no_zero_cons k v t : no_zero ((k, v) :: t) → v ≠ 0 ∧ no_zero t.
Proof. intros Hnz. by apply Forall_cons in Hnz. Qed.

Lemma fold_min_step t m :
  m ≠ 0 → no_zero t →
  fold_left min_step t m ≠ 0 ∧ fold_left min_step t m ≤ m ∧
  (∀ k v, (k, v) ∈ t → fold_left min_step t m ≤ v) ∧
  (fold_left min_step t m = m ∨ ∃ k, (k, fold_left min_step t m) ∈ t).
Proof.
  revert m. induction t as [|[k0 v0] t IH]; intros m Hm Hnz; simpl.
  - split_and!; [done|lia| |by left]. intros k v Hin. by apply elem_of_nil in Hin.
  - destruct (no_zero_cons _ _ _ Hnz) as [Hv0 Hnz'].
    set (m1 := min_step m (k0, v0)).
    assert (Hm1 : m1 ≠ 0 ∧ m1 ≤ m ∧ m1 ≤ v0 ∧ (m1 = m ∨ m1 = v0)).
    { unfold m1, min_step. simpl. rewrite decide_False by done. case_decide; lia. }
    clearbody m1. destruct Hm1 as (Hm1 & Hle1 & Hle2 & Hcase).
    destruct (IH m1 Hm1 Hnz') as (Hr & Hle & Hall & Hin).
    split_and!; [done|lia| |].
    + intros k v [[= -> ->]|Hkv]%elem_of_cons; [lia|by eapply Hall].
    + destruct Hin as [Heq|[k Hk]].
      * rewrite Heq. destruct Hcase as [->| ->]; [by left|].
        right. exists k0. apply elem_of_cons. by left.
      * right. exists k. apply elem_of_cons. by right.
Qed.

(** On a table that is not empty and holds no [0], the loop of
    [getMinimumTimestampNs] finds the least value. *)
Lemma min_of_table_is_min t : t ≠ [] → no_zero t → is_min_watermark (min_of_table t) t.
Proof.
  destruct t as [|[k0 v0] t]; [done|]. intros _ Hnz.
  destruct (no_zero_cons _ _ _ Hnz) as [Hv0 Hnz'].
  unfold min_of_table. simpl. unfold min_step at 2. simpl.
  destruct (fold_min_step t v0 Hv0 Hnz') as (Hr & Hle & Hall & Hin).
  split.
  - destruct Hin as [->|[k Hk]].
    + exists k0. apply elem_of_cons. by left.
    + exists k. apply elem_of_cons. by right.
  - intros k v [[= -> ->]|Hkv]%elem_of_cons; [done|by eapply Hall].
Qed.

Lemma is_min_watermark_unique m1 m2 t :
  is_min_watermark m1 t → is_min_watermark m2 t → m1 = m2.
Proof.
  intros [[k1 H1] Hle1] [[k2 H2] Hle2].
  specialize (Hle1 _ _ H2). specialize (Hle2 _ _ H1). lia.
Qed.

Lemma mChanges_resynthesize timestamp s : mChanges (resynthesize timestamp s) = mChanges s.
Proof. unfold resynthesize. by destruct (mSnapshots s). Qed.

Lemma mMap_appendUidMap timestamp key s : mMap (appendUidMap timestamp key s).2 = mMap s.
Proof.
  rewrite appendUidMap_state. simpl. case_decide; [|done].
  unfold resynthesize. destruct (mSnapshots (purge _ _)); simpl; by rewrite mMap_purge.
Qed.

(** ** The claims about reports and purges *)

(** C7, as amended: [appendUidMap] stores the time it is given as the
    last report of its key, whatever was stored before, also when the
    time is below it, and [OnConfigUpdated] stores -1, whatever was
    stored before; every other call, and these two for another key, leave
    the last report of [key] as it is ([OnConfigRemoved] of another key
    included).  So the last report of a key that stays in the table does
    not go down over a call unless the call is an [appendUidMap] of the
    key with an earlier time or an [OnConfigUpdated] of the key. *)
Theorem C7_watermark_after_each_call key w c s s' :
  wm_find key (mLastUpdatePerConfigKey s) = Some w →
  call c s = Some s' →
  match c with
  | CallAppendUidMap timestamp k =>
      wm_find key (mLastUpdatePerConfigKey s') = Some (if decide (k = key) then timestamp else w)
  | CallOnConfigUpdated k =>
      wm_find key (mLastUpdatePerConfigKey s') = Some (if decide (k = key) then -1 else w)
  | CallOnConfigRemoved k =>
      k ≠ key → wm_find key (mLastUpdatePerConfigKey s') = Some w
  | _ => wm_find key (mLastUpdatePerConfigKey s') = Some w
  end ∧
  (keeps_watermark key w c →
   ∃ w', wm_find key (mLastUpdatePerConfigKey s') = Some w' ∧ w ≤ w').
Proof.
  intros Hw Hcall.
  destruct c as [ts us vs ps|ts app u v|ts app u|ts k|k|k|i p|i p|];
    try (match type of Hcall with
         | call ?c _ = _ => rewrite (table_call_other c s s' I Hcall)
         end; split; [done|]; intros _; exists w; split; [done|lia]).
  - simpl in *. injection Hcall as <-. rewrite table_appendUidMap.
    pose proof (append_select_touched k s) as Ht.
    destruct (decide (k = key)) as [->|Hk].
    + rewrite wm_find_assign_eq. split; [done|].
      intros Hkeeps. exists ts. split; [done|by apply Hkeeps].
    + rewrite wm_find_assign_ne by done.
      rewrite (touched_find _ _ _ _ _ Ht Hw). split; [done|].
      intros _. exists w. split; [done|lia].
  - simpl in *. injection Hcall as <-. simpl.
    destruct (decide (k = key)) as [->|Hk].
    + rewrite wm_find_assign_eq. split; [done|].
      intros Hkeeps. exists (-1). split; [done|by apply Hkeeps].
    + rewrite wm_find_assign_ne by done. rewrite Hw. split; [done|].
      intros _. exists w. split; [done|lia].
  - simpl in *. injection Hcall as <-. simpl. split.
    + intros Hk. by rewrite wm_find_erase_ne.
    + intros Hk. exists w. rewrite wm_find_erase_ne by done. split; [done|lia].
Qed.

(** For a key that is in the table, when neither a stored last report
    nor the time of the call is 0, [appendUidMap] stores the
    time as the last report of the key and leaves the other keys alone;
    the two values it compares are the least last report before and after
    that; when the least has gone up, the logs keep exactly the records
    whose time is not below the new least, in their order (and the
    snapshot log gets the one fresh snapshot if none is kept); when it has
    not, both logs are as they were. *)
Lemma purge_below_new_minimum timestamp key w s :
  wm_find key (mLastUpdatePerConfigKey s) = Some w →
  no_zero (mLastUpdatePerConfigKey s) → timestamp ≠ 0 →
  let s' := (appendUidMap timestamp key s).2 in
  let kept_snapshots :=
    filter (λ r, newMin timestamp key s ≤ SnapshotRecord.timestampNs r) (mSnapshots s) in
  is_min_watermark (prevMin key s) (mLastUpdatePerConfigKey s) ∧
  is_min_watermark (newMin timestamp key s) (mLastUpdatePerConfigKey s') ∧
  wm_find key (mLastUpdatePerConfigKey s') = Some timestamp ∧
  (∀ k, k ≠ key →
        wm_find k (mLastUpdatePerConfigKey s') = wm_find k (mLastUpdatePerConfigKey s)) ∧
  (prevMin key s < newMin timestamp key s →
     mChanges s' =
       filter (λ r, newMin timestamp key s ≤ ChangeRecord.timestampNs r) (mChanges s) ∧
     (kept_snapshots ≠ [] → mSnapshots s' = kept_snapshots) ∧
     (kept_snapshots = [] →
        mSnapshots s' =
        [SnapshotRecord.mk timestamp
           (proto_package_info
              ((λ e : Z * AppData, (packageName e.2, to_int (versionCode e.2), to_int e.1))
                 <$> mMap s))])) ∧
  (newMin timestamp key s ≤ prevMin key s →
     mChanges s' = mChanges s ∧ mSnapshots s' = mSnapshots s).
Proof.
  intros Hw Hnz Hts s' kept. subst s' kept.
  pose proof (touched_registered _ _ _ _ Hw (append_select_touched key s)) as Hsel.
  rewrite table_appendUidMap. unfold prevMin, newMin. rewrite Hsel.
  assert (Hne : mLastUpdatePerConfigKey s ≠ []).
  { intros Hnil. by rewrite Hnil in Hw. }
  assert (Hnz' : no_zero (wm_assign key timestamp (mLastUpdatePerConfigKey s))).
  { apply Forall_forall. intros [k v] [[-> ->]|Hin]%elem_of_wm_assign; [done|].
    by apply (proj1 (Forall_forall _ _) Hnz (k, v)). }
  assert (Hne' : wm_assign key timestamp (mLastUpdatePerConfigKey s) ≠ []).
  { intros Hnil. pose proof (wm_find_assign_eq key timestamp (mLastUpdatePerConfigKey s)) as Hf.
    by rewrite Hnil in Hf. }
  split_and!.
  - by apply min_of_table_is_min.
  - by apply min_of_table_is_min.
  - apply wm_find_assign_eq.
  - intros k Hk. by apply wm_find_assign_ne.
  - intros Hadv. rewrite appendUidMap_state. unfold prevMin, newMin. rewrite Hsel.
    simpl. rewrite decide_True by done.
    rewrite mChanges_resynthesize, mChanges_purge. split_and!; [done| |].
    + intros Hkept. unfold resynthesize. rewrite mSnapshots_purge. simpl.
      destruct (filter _ (mSnapshots s)) eqn:Hf; [done|].
      rewrite mSnapshots_purge. exact Hf.
    + intros Hkept. unfold resynthesize. rewrite mSnapshots_purge. simpl.
      rewrite Hkept. simpl. unfold fresh_snapshot. by rewrite mMap_purge.
  - intros Hstay. rewrite appendUidMap_state. unfold prevMin, newMin. rewrite Hsel.
    simpl. rewrite decide_False by lia. done.
Qed.

(** C5: when [appendUidMap] has purged (the minimum moved forward), the
    snapshot log it leaves is not empty; if no retained snapshot survives
    the purge, the log is exactly one new snapshot, stamped with the time
    of the call and holding the encoding of [mMap] as it is (of each
    entry the name, the version as an [int] and the uid as an [int], in
    the order of [mMap]), and
    [mBytesUsed] is what the purge left plus [kBytesTimestampField] plus
    the size of that encoding.  [mMap] itself is not touched. *)
Theorem C5_snapshot_log_not_empty_after_purge timestamp key s :
  prevMin key s < newMin timestamp key s →
  let s' := (appendUidMap timestamp key s).2 in
  let fresh :=
    SnapshotRecord.mk timestamp
      (proto_package_info
         ((λ e : Z * AppData, (packageName e.2, to_int (versionCode e.2), to_int e.1))
            <$> mMap s)) in
  mSnapshots s' ≠ [] ∧ mMap s' = mMap s ∧
  (filter (λ r, newMin timestamp key s ≤ SnapshotRecord.timestampNs r) (mSnapshots s) = [] →
     mSnapshots s' = [fresh] ∧
     mBytesUsed s' =
       to_size_t (mBytesUsed (purge (newMin timestamp key s) s) +
                  (kBytesTimestampField + Z.of_nat (length (SnapshotRecord.bytes fresh))))).
Proof.
  intros Hadv s' fresh. subst s' fresh.
  split_and!; [|apply mMap_appendUidMap|].
  - rewrite appendUidMap_state. simpl. rewrite decide_True by done.
    unfold resynthesize. destruct (mSnapshots (purge _ _)) eqn:Hp; simpl; [done|].
    by rewrite Hp.
  - intros Hkept. rewrite appendUidMap_state. simpl. rewrite decide_True by done.
    unfold resynthesize. rewrite mSnapshots_purge. simpl. rewrite Hkept. simpl.
    unfold fresh_snapshot. rewrite mMap_purge. simpl. split; [done|].
    do 2 f_equal. unfold purge. simpl.
    destruct (purge_snapshots _ _ _) as [snaps b1].
    by destruct (purge_changes _ _ _) as [chgs b2].
Qed.

End Reconcile.

Section Store.
Context `{Externals}.
Context {ConfigKey : Type} `{EqDecision ConfigKey}.
Implicit Types s : UidMap (ConfigKey := ConfigKey).
Implicit Types m : list (Z * AppData).

(** ** One entry per uid and package *)

Lemma update_version_keys u name v m m' :
  update_version u name v m = Some m' → app_key <$> m' = app_key <$> m.
Proof.
  revert m'. induction m as [|e m IH]; intros m'; simpl; [done|].
  case_decide as He.
  - intros [= <-]. done.
  - destruct (update_version u name v m) as [m1|]; simpl; [|done].
    intros [= <-]. rewrite !fmap_cons. f_equal. by apply IH.
Qed.

Lemma update_version_None u name v m :
  update_version u name v m = None → (u, name) ∉ app_key <$> m.
Proof.
  induction m as [|e m IH]; simpl.
  - intros _ Hin. by apply elem_of_nil in Hin.
  - case_decide as He; [done|].
    destruct (update_version u name v m) as [m1|]; simpl; [done|].
    intros _. apply not_elem_of_cons. split; [|by apply IH].
    intros Heq. apply He. unfold is_app. unfold app_key in Heq.
    by injection Heq as -> ->.
Qed.

Lemma erase_app_subset u name m k : k ∈ app_key <$> erase_app u name m → k ∈ app_key <$> m.
Proof.
  induction m as [|e m IH]; simpl; [done|].
  case_decide.
  - intros Hin. apply elem_of_cons. by right.
  - simpl. rewrite !elem_of_cons. intros [->|Hin]; [by left|right; by apply IH].
Qed.

Lemma NoDup_erase_app u name m :
  NoDup (app_key <$> m) → NoDup (app_key <$> erase_app u name m).
Proof.
  induction m as [|e m IH]; simpl; [done|].
  rewrite NoDup_cons. intros [Hnot Hnd].
  case_decide; [done|]. simpl. apply NoDup_cons. split; [|by apply IH].
  intros Hin. apply Hnot. by eapply erase_app_subset.
Qed.

Lemma read_packages_keys uid versionCode packageName entries :
  read_packages uid versionCode packageName = Some entries →
  app_key <$> entries = zip uid packageName.
Proof.
  revert versionCode packageName entries.
  induction uid as [|u us IH]; intros vs ps entries; simpl.
  - by intros [= <-].
  - destruct vs as [|v vs]; [done|]. destruct ps as [|p ps]; [done|].
    destruct (read_packages us vs ps) as [rest|] eqn:Hrest; simpl; [|done].
    intros [= <-]. simpl. unfold app_key at 1. simpl. f_equal. by eapply IH.
Qed.

Lemma unique_apps_call c s s' :
  distinct_packages c → unique_apps s → call c s = Some s' → unique_apps s'.
Proof.
  unfold unique_apps. intros Hc Hs. destruct c; simpl in *.
  - unfold updateMap.
    destruct (read_packages _ _ _) as [entries|] eqn:Hread; simpl; [|done].
    intros Hrun. apply ensure_frame in Hrun as [_ ->]. simpl.
    by rewrite (read_packages_keys _ _ _ _ Hread).
  - unfold updateApp.
    destruct (ensureBytesUsedBelowLimit _) as [s1|] eqn:Hrun; simpl; [|done].
    apply ensure_frame in Hrun as [_ Hm]. simpl in Hm. intros [= <-].
    destruct (update_version _ _ _ _) as [m|] eqn:Hup; simpl.
    + by rewrite (update_version_keys _ _ _ _ _ Hup), Hm.
    + rewrite fmap_app. apply NoDup_app. rewrite Hm. split_and!; [done| |].
      * intros k Hk [= ->]%list_elem_of_singleton.
        apply update_version_None in Hup. rewrite Hm in Hup. done.
      * apply NoDup_singleton.
  - unfold removeApp.
    destruct (ensureBytesUsedBelowLimit _) as [s1|] eqn:Hrun; simpl; [|done].
    apply ensure_frame in Hrun as [_ Hm]. simpl in Hm. intros [= <-]. simpl.
    apply NoDup_erase_app. by rewrite Hm.
  - intros [= <-]. by rewrite mMap_appendUidMap.
  - by intros [= <-].
  - by intros [= <-].
  - by intros [= <-].
  - intros [= <-]. unfold removeIsolatedUid. by destruct (_ !! _).
  - by intros [= <-].
Qed.

(** C6, as amended: over every run of calls in which each [updateMap]
    brings pairwise different (uid, package) pairs, [mMap] never holds
    two entries with the same uid and package name. *)
Theorem C6_unique_uid_package override cs s' :
  Forall distinct_packages cs →
  run cs (UidMap_new override) = Some s' →
  NoDup ((λ e : Z * AppData, (e.1, packageName e.2)) <$> mMap s').
Proof.
  intros Hcs.
  assert (Hinit : unique_apps (UidMap_new (ConfigKey := ConfigKey) override))
    by apply NoDup_nil_2.
  revert Hinit. generalize (UidMap_new (ConfigKey := ConfigKey) override).
  induction Hcs as [|c cs Hc Hcs IH]; intros s Hs; simpl.
  - by intros [= <-].
  - destruct (call c s) as [s1|] eqn:Hcall; simpl; [|done].
    apply IH. by eapply unique_apps_call.
Qed.

(** ** Isolated uids *)

(** C10: [removeIsolatedUid] never looks at [parentUid]: it gives the
    same state for any two values of it, the entry of [isolatedUid] is
    gone afterwards, and [getHostUidOrSelf] then answers [isolatedUid]
    itself. *)
Theorem C10_removeIsolatedUid_ignores_parent isolatedUid parentUid s :
  (∀ parentUid',
     removeIsolatedUid isolatedUid parentUid' s = removeIsolatedUid isolatedUid parentUid s) ∧
  mIsolatedUidMap (removeIsolatedUid isolatedUid parentUid s) !! isolatedUid = None ∧
  getHostUidOrSelf isolatedUid (removeIsolatedUid isolatedUid parentUid s) = isolatedUid.
Proof.
  assert (Hgone :
    mIsolatedUidMap (removeIsolatedUid isolatedUid parentUid s) !! isolatedUid = None).
  { unfold removeIsolatedUid.
    destruct (mIsolatedUidMap s !! isolatedUid) eqn:Hlook; simpl; [|done].
    apply lookup_delete_eq. }
  split_and!; [done|done|].
  unfold getHostUidOrSelf. by rewrite Hgone.
Qed.

(** ** The snapshot loop of [appendUidMap] *)

(** With two or more snapshots in the log and none of them newer than the
    last report of the key, no turn of the loop writes one: [count] is
    still 0 in the last turn and is compared with [size - 1]. *)
Lemma append_snapshots_none (key : ConfigKey) size l t w :
  wm_find key t = Some w →
  1 < size < size_t_modulus →
  Forall (λ r, SnapshotRecord.timestampNs r ≤ w) l →
  append_snapshots key size l false 0 t = ([], t).
Proof.
  intros Hw Hsize Hall. induction Hall as [|r l Hr Hall IH]; simpl; [done|].
  rewrite bool_decide_eq_false_2.
  - simpl. unfold wm_index. rewrite Hw. by rewrite decide_False by lia.
  - rewrite to_size_t_small by lia. lia.
Qed.

(** A snapshot newer than the last report of the key is written, whatever
    the two locals hold. *)
Lemma append_snapshots_newer (key : ConfigKey) size l a c t w r :
  wm_find key t = Some w → r ∈ l → w < SnapshotRecord.timestampNs r →
  r ∈ (append_snapshots key size l a c t).1.
Proof.
  intros Hw. revert a c. induction l as [|r0 l IH]; intros a c Hin Hnew; simpl.
  - by apply elem_of_nil in Hin.
  - apply elem_of_cons in Hin.
    destruct (bool_decide _ && negb a).
    + specialize (IH true (to_uint (c + 1))).
      destruct (append_snapshots key size l true _ t) as [out t']. simpl in *.
      apply elem_of_cons. destruct Hin as [->|Hin]; [by left|right; by apply IH].
    + unfold wm_index. rewrite Hw. case_decide as Hlt.
      * specialize (IH true (to_uint (c + 1))).
        destruct (append_snapshots key size l true _ t) as [out t']. simpl in *.
        apply elem_of_cons. destruct Hin as [->|Hin]; [by left|right; by apply IH].
      * destruct Hin as [->|Hin]; [lia|by apply IH].
Qed.

(** A log of one snapshot has it written, whatever its time. *)
Lemma append_snapshots_single (key : ConfigKey) r t :
  append_snapshots key 1 [r] false 0 t = ([r], t).
Proof. reflexivity. Qed.

End Store.

(** * The claims on concrete states *)

(** A full map at 100, an upgrade at 200, and a configuration that is
    served for the first time at 250: it gets the one change and the
    snapshot of 100. *)
Example first_report :
  ∃ s, run [CallUpdateMap 100 [10001; 10002] [1; 2] ["com.a"; "com.b"]%string;
            CallUpdateApp 200 "com.a" 10001 3;
            CallOnConfigUpdated 7] (UidMap_new 0) = Some s ∧
       changes (appendUidMap 250 7 s).1 = [ChangeRecord.mk false 200 "com.a" 10001 3] ∧
       SnapshotRecord.timestampNs <$> snapshots (appendUidMap 250 7 s).1 = [100] ∧
       changes (appendUidMap 260 7 (appendUidMap 250 7 s).2).1 = [].
Proof.
  eexists. split; [vm_compute; reflexivity|]. split_and!; reflexivity.
Qed.

Example isolated_uid_round_trip :
  let s0 := UidMap_new (ConfigKey := Z) 0 in
  getHostUidOrSelf 99001 s0 = 99001 ∧
  getHostUidOrSelf 99001 (assignIsolatedUid 99001 10001 s0) = 10001 ∧
  getHostUidOrSelf 99001
    (removeIsolatedUid 99001 10077 (assignIsolatedUid 99001 10001 s0)) = 99001.
Proof. split_and!; reflexivity. Qed.

(** C3 at [example_charged]: 260 bytes under a budget of 210. *)
Lemma C3_witness :
  accounted example_charged ∧
  ∃ fuel s', (fuel ≤ retained example_charged)%nat ∧
             ensure_loop fuel example_charged = Some s'.
Proof.
  split; [reflexivity|].
  apply (C3_eviction_loop_terminates example_charged). reflexivity.
Defined.

(** C3 as the claim has it fails: from a state with both logs empty and
    the counter above the limit no amount of fuel brings the loop to an
    end. *)
Lemma C3_counterexample_stuck_loop :
  mSnapshots stuck_state = [] ∧ mChanges stuck_state = [] ∧
  limit stuck_state < mBytesUsed stuck_state ∧
  ¬ ∃ fuel s', ensure_loop fuel stuck_state = Some s'.
Proof.
  split_and!; [reflexivity|reflexivity|reflexivity|].
  intros (fuel & s' & Hrun).
  rewrite ensure_loop_stuck in Hrun; [discriminate|reflexivity|reflexivity].
Qed.

(** The evictions at [example_charged]: the snapshot goes first, then the
    change of 120. *)
Example evictions_at_example_charged :
  accounted example_charged ∧
  ∃ i j : nat,
    ensureBytesUsedBelowLimit example_charged = Some (evicted i j example_charged) ∧
    (i ≤ length (mSnapshots example_charged))%nat ∧
    (j ≤ length (mChanges example_charged))%nat ∧
    ((0 < j)%nat → i = length (mSnapshots example_charged)) ∧
    mBytesUsed (evicted i j example_charged) ≤ limit example_charged ∧
    ∀ i' j' : nat,
      (i' + j' < i + j)%nat → (i' ≤ length (mSnapshots example_charged))%nat →
      ((0 < j')%nat → i' = length (mSnapshots example_charged)) →
      limit example_charged < mBytesUsed (evicted i' j' example_charged).
Proof.
  split; [reflexivity|].
  apply (ensure_evicts_oldest_first example_charged). reflexivity.
Qed.

(** C9 at [example_state], which has no com.c under uid 10003. *)
Lemma C9_witness :
  accounted example_state ∧ hasApp 10003 "com.c" example_state = false ∧
  ∃ s1 s',
    ensureBytesUsedBelowLimit
      (set_mBytesUsed (to_size_t (mBytesUsed example_state + kBytesChangeRecord))
         (set_mChanges
            (mChanges example_state ++ [ChangeRecord.mk true 260 "com.c" 10003 0])
            example_state))
      = Some s1 ∧
    removeApp 260 "com.c" 10003 example_state = Some s' ∧
    mMap s' = mMap example_state ∧
    mChanges s' = mChanges s1 ∧ mSnapshots s' = mSnapshots s1 ∧
    mBytesUsed s' = mBytesUsed s1 ∧
    ∀ m, ∃ s'',
      removeApp 260 "com.c" 10003 (set_mMap m example_state) = Some s'' ∧
      mMap s'' = erase_app 10003 "com.c" m ∧
      mChanges s'' = mChanges s' ∧ mSnapshots s'' = mSnapshots s' ∧
      mBytesUsed s'' = mBytesUsed s'.
Proof.
  split_and!; [reflexivity|reflexivity|].
  apply (C9_removeApp_absent 260 "com.c" 10003 example_state); reflexivity.
Defined.

(** C1 on a failing input: after [two_snapshots_run] the log holds the
    snapshots of 100 and 200 and the first configuration was last served
    at 300; its next [appendUidMap], at 400, writes no snapshot at all,
    where the claim has it write the snapshot of 200. *)
Theorem C1_latest_snapshot_not_reported :
  ∃ s, run two_snapshots_run (UidMap_new 0) = Some s ∧
       SnapshotRecord.timestampNs <$> mSnapshots s = [100; 200] ∧
       wm_find 1 (mLastUpdatePerConfigKey s) = Some 300 ∧
       snapshots (appendUidMap 400 1 s).1 = [].
Proof.
  eexists. split; [vm_compute; reflexivity|].
  split_and!; reflexivity.
Qed.

(** C2 on a failing input: after [large_map_run] no snapshot is retained
    and the counter is 0, under the default budget of 51200 bytes; the
    snapshot that the next [appendUidMap] puts into the empty log is
    charged and nothing is evicted for it, which leaves the counter at
    76904. *)
Theorem C2_fresh_snapshot_exceeds_limit :
  ∃ s, run large_map_run (UidMap_new 0) = Some s ∧
       mSnapshots s = [] ∧ mBytesUsed s = 0 ∧
       let s' := (appendUidMap 2 1 s).2 in
       limit s' = 51200 ∧ mBytesUsed s' = 76904 ∧ limit s' < mBytesUsed s'.
Proof.
  eexists. split; [vm_compute; reflexivity|].
  cbv zeta. split_and!; vm_compute; reflexivity.
Qed.

(** The purge at [example_state]: the first configuration moves from 100
    to 150 while the second is at 300; what is older than 150 goes, what
    is not stays. *)
Example purge_at_example_state :
  wm_find 1 (mLastUpdatePerConfigKey example_state) = Some 100 ∧
  no_zero (mLastUpdatePerConfigKey example_state) ∧ 150 ≠ 0 ∧
  let s' := (appendUidMap 150 1 example_state).2 in
  is_min_watermark 100 (mLastUpdatePerConfigKey example_state) ∧
  is_min_watermark 150 (mLastUpdatePerConfigKey s') ∧
  wm_find 1 (mLastUpdatePerConfigKey s') = Some 150 ∧
  mChanges s' = [example_change 160; example_change 200] ∧
  mSnapshots s' =
    [SnapshotRecord.mk 150
       (proto_package_info [("com.a"%string, 3, 10001); ("com.b"%string, 2, 10002)])].
Proof.
  assert (H1 : wm_find 1 (mLastUpdatePerConfigKey example_state) = Some 100)
    by reflexivity.
  assert (H2 : no_zero (mLastUpdatePerConfigKey example_state))
    by (repeat (apply Forall_cons; split; [discriminate|]); apply Forall_nil_2).
  assert (H3 : 150 ≠ 0) by discriminate.
  split_and!; [exact H1|exact H2|exact H3|].
  destruct (purge_below_new_minimum 150 1 100 example_state H1 H2 H3)
    as (Hbefore & Hafter & Hkey & _ & Hpurge & _).
  destruct (Hpurge ltac:(reflexivity)) as (Hch & _ & Hsn).
  split_and!; [exact Hbefore|exact Hafter|exact Hkey|exact Hch|exact (Hsn eq_refl)].
Qed.

(** C4 on a failing input: after [zero_watermark_run] the log holds the
    changes of 100 and 150, the second configuration was last served at 0
    and the first never.  [appendUidMap] for the first at 300 leaves the
    last reports at 0 and 300, whose minimum is 0, as it was not before
    (-1 was there); [getMinimumTimestampNs] takes the stored 0 that it
    meets first for "no value yet" and answers 300, and the call removes
    both changes, which are not below the minimum.  The second
    configuration, served again at 400, gets no change.  The answer
    depends on the order in which the table is iterated: with the 0 met
    last the same loop answers 0. *)
Theorem C4_minimum_skips_stored_zero :
  ∃ s, run zero_watermark_run (UidMap_new 0) = Some s ∧
       let s' := (appendUidMap 300 1 s).2 in
       ChangeRecord.timestampNs <$> mChanges s = [100; 150] ∧
       mLastUpdatePerConfigKey s = [(2, 0); (1, -1)] ∧
       mLastUpdatePerConfigKey s' = [(2, 0); (1, 300)] ∧
       is_min_watermark 0 (mLastUpdatePerConfigKey s') ∧
       prevMin 1 s = -1 ∧ newMin 300 1 s = 300 ∧
       mChanges s' = [] ∧
       changes (appendUidMap 400 2 s').1 = [] ∧
       min_of_table [(1, 300); (2, 0)] = 0.
Proof.
  eexists. split; [vm_compute; reflexivity|].
  cbv zeta. split_and!; try reflexivity.
  split.
  - exists 2. apply elem_of_cons. by left.
  - intros k v Hin. vm_compute in Hin.
    apply elem_of_cons in Hin as [[= -> ->]|Hin]; [done|].
    apply elem_of_cons in Hin as [[= -> ->]|Hin]; [done|].
    by apply elem_of_nil in Hin.
Qed.

(** C8 on a failing input: after [large_map_run] and [appendUidMap] at 2
    the counter has just been charged with the fresh snapshot (10 bytes
    and the 76894 of the encoding) and stands above the limit of 51200;
    the call returns with the snapshot in the log and evicts nothing,
    where the loop of [ensureBytesUsedBelowLimit], had it been called
    after this charge as it is after the other three, would have evicted
    the oldest snapshot and brought the counter to 0. *)
Theorem C8_no_eviction_after_fresh_snapshot_charge :
  ∃ s, run large_map_run (UidMap_new 0) = Some s ∧
       let s' := (appendUidMap 2 1 s).2 in
       mBytesUsed s = 0 ∧
       SnapshotRecord.timestampNs <$> mSnapshots s' = [2] ∧
       mBytesUsed s' = mBytesUsed s + (kBytesTimestampField + 76894) ∧
       limit s' < mBytesUsed s' ∧
       ensureBytesUsedBelowLimit s' = Some (evicted 1 0 s') ∧
       mSnapshots (evicted 1 0 s') = [] ∧ mBytesUsed (evicted 1 0 s') = 0.
Proof.
  eexists. split; [vm_compute; reflexivity|].
  cbv zeta. split_and!; vm_compute; reflexivity.
Qed.

(** C5 at [example_state]: the purge at 150 takes the only snapshot. *)
Lemma C5_witness :
  prevMin 1 example_state < newMin 150 1 example_state ∧
  let s' := (appendUidMap 150 1 example_state).2 in
  let fresh :=
    SnapshotRecord.mk 150
      (proto_package_info [("com.a"%string, 3, 10001); ("com.b"%string, 2, 10002)]) in
  mSnapshots s' ≠ [] ∧ mMap s' = mMap example_state ∧
  (filter (λ r, newMin 150 1 example_state ≤ SnapshotRecord.timestampNs r)
          (mSnapshots example_state) = [] →
     mSnapshots s' = [fresh] ∧
     mBytesUsed s' =
       to_size_t (mBytesUsed (purge (newMin 150 1 example_state) example_state) +
                  (kBytesTimestampField + Z.of_nat (length (SnapshotRecord.bytes fresh))))).
Proof.
  split; [reflexivity|].
  apply (C5_snapshot_log_not_empty_after_purge 150 1 example_state). reflexivity.
Defined.

(** C6 over [distinct_run]. *)
Lemma C6_witness :
  Forall distinct_packages distinct_run ∧
  run distinct_run (UidMap_new 0) = Some distinct_run_end ∧
  NoDup ((λ e : Z * AppData, (e.1, packageName e.2)) <$> mMap distinct_run_end).
Proof.
  assert (H1 : Forall distinct_packages distinct_run).
  { repeat (apply Forall_cons; split; [simpl|]); try exact I; [|apply Forall_nil_2].
    apply (bool_decide_unpack _). reflexivity. }
  assert (H2 : run distinct_run (UidMap_new 0) = Some distinct_run_end) by reflexivity.
  split_and!; [exact H1|exact H2|].
  exact (C6_unique_uid_package 0 distinct_run distinct_run_end H1 H2).
Defined.

(** C6 as the claim has it fails: a full map that names (10001, com.a)
    twice leaves both entries in [mMap]. *)
Lemma C6_counterexample_duplicate_bulk :
  ∃ s, run duplicate_map_run (UidMap_new 0) = Some s ∧
       ¬ NoDup ((λ e : Z * AppData, (e.1, packageName e.2)) <$> mMap s).
Proof.
  eexists. split; [vm_compute; reflexivity|].
  simpl. intros [Hnot _]%NoDup_cons. apply Hnot. apply elem_of_cons. by left.
Qed.

(** C7 at [example_state]: the first configuration, served at 100, is
    served again with the time 50; its last report is 50 afterwards, and
    that of the second is still 300. *)
Lemma C7_witness :
  wm_find 1 (mLastUpdatePerConfigKey example_state) = Some 100 ∧
  call (CallAppendUidMap 50 1) example_state =
    Some (appendUidMap 50 1 example_state).2 ∧
  wm_find 1 (mLastUpdatePerConfigKey (appendUidMap 50 1 example_state).2) = Some 50 ∧
  (keeps_watermark 1 100 (CallAppendUidMap 50 1) →
   ∃ w', wm_find 1 (mLastUpdatePerConfigKey (appendUidMap 50 1 example_state).2)
           = Some w' ∧ 100 ≤ w').
Proof.
  split; [reflexivity|]. split; [reflexivity|].
  exact (C7_watermark_after_each_call 1 100 (CallAppendUidMap 50 1)
           example_state _ eq_refl eq_refl).
Defined.

(** C7 as the claim has it fails: a configuration served at 200 and then
    at 100 has 100 as its last report. *)
Lemma C7_counterexample_earlier_timestamp :
  ∃ s, run [CallOnConfigUpdated 1; CallAppendUidMap 200 1] (UidMap_new 0) = Some s ∧
       wm_find 1 (mLastUpdatePerConfigKey s) = Some 200 ∧
       wm_find 1 (mLastUpdatePerConfigKey (appendUidMap 100 1 s).2) = Some 100 ∧
       100 < 200.
Proof.
  eexists. split; [vm_compute; reflexivity|].
  split_and!; reflexivity.
Qed.

(** * More of the map: lookups, bulk updates, reports *)

Section Lookups.
Context `{Externals}.
Context {ConfigKey : Type} `{EqDecision ConfigKey}.
Implicit Types s : UidMap (ConfigKey := ConfigKey).
Implicit Types m : list (Z * AppData).

Lemma run_accounted override cs s :
  run cs (UidMap_new (ConfigKey := ConfigKey) override) = Some s → accounted s.
Proof.
  intros Hrun. eapply (run_invariant accounted); [apply accounted_call| |exact Hrun].
  reflexivity.
Qed.

Lemma run_unique_apps override cs s :
  Forall distinct_packages cs →
  run cs (UidMap_new (ConfigKey := ConfigKey) override) = Some s → unique_apps s.
Proof.
  intros Hcs.
  assert (Hinit : unique_apps (UidMap_new (ConfigKey := ConfigKey) override))
    by apply NoDup_nil_2.
  revert Hinit. generalize (UidMap_new (ConfigKey := ConfigKey) override). revert s.
  induction Hcs as [|c cs Hc Hcs IH]; intros s s0 Hs0; simpl.
  - by intros [= <-].
  - destruct (call c s0) as [s1|] eqn:Hcall; simpl; [|done].
    apply IH. by eapply unique_apps_call.
Qed.

Lemma hasApp_in_true u n m : hasApp_in u n m = true ↔ (u, n) ∈ app_key <$> m.
Proof.
  induction m as [|e m IH]; simpl.
  - split; [done|]. intros Hin. by apply elem_of_nil in Hin.
  - rewrite elem_of_cons. case_decide as He.
    + split; [|done]. intros _. left. destruct He as [<- <-]. done.
    + rewrite IH. split; [by right|]. intros [Heq|Hin]; [|done].
      exfalso. apply He. unfold app_key in Heq. by injection Heq as -> ->.
Qed.

Lemma hasApp_in_false u n m : hasApp_in u n m = false ↔ (u, n) ∉ app_key <$> m.
Proof.
  rewrite <- hasApp_in_true. by destruct (hasApp_in u n m).
Qed.

Lemma getAppVersion_in_absent u n m :
  hasApp_in u n m = false → getAppVersion_in u n m = 0.
Proof.
  induction m as [|e m IH]; simpl; [done|]. by case_decide.
Qed.

Lemma is_app_inj u n u' n' e : is_app u n e → is_app u' n' e → (u', n') = (u, n).
Proof. by intros [<- <-] [<- <-]. Qed.

Lemma update_version_found u n v m m' :
  update_version u n v m = Some m' →
  hasApp_in u n m' = true ∧ getAppVersion_in u n m' = v.
Proof.
  revert m'. induction m as [|e m IH]; intros m'; simpl; [done|].
  case_decide as He.
  - intros [= <-]. simpl. destruct He as [Hu Hn].
    split; (rewrite decide_True by (by split)); done.
  - destruct (update_version u n v m) as [m1|]; simpl; [|done].
    intros [= <-]. simpl. destruct (IH m1 eq_refl) as [IH1 IH2].
    split; (rewrite decide_False by done); done.
Qed.

Lemma update_version_other u n v m m' u' n' :
  update_version u n v m = Some m' → (u', n') ≠ (u, n) →
  hasApp_in u' n' m' = hasApp_in u' n' m ∧
  getAppVersion_in u' n' m' = getAppVersion_in u' n' m.
Proof.
  intros Hup Hne. revert m' Hup.
  induction m as [|e m IH]; intros m'; simpl; [done|].
  case_decide as He.
  - intros [= <-]. simpl.
    assert (Hnot : ¬ is_app u' n' e) by (intros He'; by apply Hne, (is_app_inj u n u' n' e)).
    assert (Hnot' : ¬ is_app u' n'
              (e.1, {| packageName := packageName e.2; versionCode := v |})).
    { intros [Hu Hn]. by apply Hnot. }
    split; repeat case_decide; done.
  - destruct (update_version u n v m) as [m1|]; simpl; [|done].
    intros [= <-]. simpl. destruct (IH m1 eq_refl) as [-> ->]. done.
Qed.

Lemma update_version_None_absent u n v m :
  update_version u n v m = None → hasApp_in u n m = false.
Proof.
  intros Hup. apply hasApp_in_false. by eapply update_version_None.
Qed.

Lemma lookup_snoc u n m e :
  hasApp_in u n (m ++ [e]) = hasApp_in u n m || bool_decide (is_app u n e) ∧
  getAppVersion_in u n (m ++ [e]) =
    (if hasApp_in u n m then getAppVersion_in u n m
     else if decide (is_app u n e) then versionCode e.2 else 0).
Proof.
  induction m as [|e0 m [IH1 IH2]]; simpl.
  - destruct (decide (is_app u n e)) as [He|He];
      [by rewrite bool_decide_eq_true_2|by rewrite bool_decide_eq_false_2].
  - destruct (decide (is_app u n e0)) as [He0|He0]; [done|]. by rewrite IH1, IH2.
Qed.

Lemma erase_app_gone u n m :
  NoDup (app_key <$> m) → hasApp_in u n (erase_app u n m) = false.
Proof.
  induction m as [|e m IH]; simpl; [done|].
  rewrite NoDup_cons. intros [Hnot Hnd]. case_decide as He.
  - apply hasApp_in_false. destruct He as [<- <-]. done.
  - simpl. case_decide; [done|]. by apply IH.
Qed.

Lemma erase_app_other u n m u' n' :
  (u', n') ≠ (u, n) →
  hasApp_in u' n' (erase_app u n m) = hasApp_in u' n' m ∧
  getAppVersion_in u' n' (erase_app u n m) = getAppVersion_in u' n' m.
Proof.
  intros Hne. induction m as [|e m [IH1 IH2]]; simpl; [done|].
  case_decide as He.
  - assert (Hnot : ¬ is_app u' n' e)
      by (intros He'; by apply Hne, (is_app_inj u n u' n' e)).
    split; case_decide; done.
  - simpl. by rewrite IH1, IH2.
Qed.

Lemma read_packages_long_enough uid versionCode packageName :
  (length uid ≤ length versionCode)%nat → (length uid ≤ length packageName)%nat →
  read_packages uid versionCode packageName = Some (packages_of uid versionCode packageName).
Proof.
  revert versionCode packageName.
  induction uid as [|u us IH]; intros vs ps Hv Hp; simpl; [done|].
  destruct vs as [|v vs]; simpl in Hv; [lia|].
  destruct ps as [|p ps]; simpl in Hp; [lia|].
  rewrite IH by lia. done.
Qed.

Lemma read_packages_take uid versionCode packageName :
  read_packages uid (take (length uid) versionCode) (take (length uid) packageName) =
  read_packages uid versionCode packageName.
Proof.
  revert versionCode packageName.
  induction uid as [|u us IH]; intros vs ps; simpl; [done|].
  destruct vs as [|v vs]; [done|]. destruct ps as [|p ps]; [done|].
  simpl. by rewrite IH.
Qed.

Lemma read_packages_too_short uid versionCode packageName :
  is_Some (read_packages uid versionCode packageName) →
  (length uid ≤ length versionCode)%nat ∧ (length uid ≤ length packageName)%nat.
Proof.
  revert versionCode packageName.
  induction uid as [|u us IH]; intros vs ps; simpl; [lia|].
  destruct vs as [|v vs]; [by intros [? ?]|].
  destruct ps as [|p ps]; [by intros [? ?]|].
  destruct (read_packages us vs ps) as [rest|] eqn:Hrest; simpl; [|by intros [? ?]].
  intros _. destruct (IH vs ps) as [? ?]; [by rewrite Hrest|]. simpl. lia.
Qed.

Lemma getAppNamesFromUid_in_spec uid norm m names x :
  x ∈ getAppNamesFromUid_in uid norm m names ↔
  x ∈ names ∨
  ∃ e, e ∈ m ∧ e.1 = uid ∧
       x = (if norm then normalizeAppName (packageName e.2) else packageName e.2).
Proof.
  revert names. induction m as [|e m IH]; intros names; simpl.
  - split; [by left|]. intros [Hin|(e & He & _)]; [done|by apply elem_of_nil in He].
  - case_decide as He; rewrite IH.
    + rewrite elem_of_union, elem_of_singleton. split.
      * intros [[->|Hin]|(e' & Hin & Hu & ->)]; [|by left|].
        -- right. exists e. split_and!; [apply elem_of_cons; by left|done|done].
        -- right. exists e'. split_and!; [apply elem_of_cons; by right|done|done].
      * intros [Hin|(e' & [->|Hin]%elem_of_cons & Hu & ->)];
          [by left; right|by left; left|].
        right. by exists e'.
    + split.
      * intros [Hin|(e' & Hin & Hu & ->)]; [by left|].
        right. exists e'. split_and!; [apply elem_of_cons; by right|done|done].
      * intros [Hin|(e' & [->|Hin]%elem_of_cons & Hu & ->)]; [by left|done|].
        right. by exists e'.
Qed.

Lemma getAppUid_in_spec package m results u :
  u ∈ getAppUid_in package m results ↔
  u ∈ results ∨ ∃ e, e ∈ m ∧ e.1 = u ∧ packageName e.2 = package.
Proof.
  revert results. induction m as [|e m IH]; intros results; simpl.
  - split; [by left|]. intros [Hin|(e & He & _)]; [done|by apply elem_of_nil in He].
  - case_decide as He; rewrite IH.
    + rewrite elem_of_union, elem_of_singleton. split.
      * intros [[->|Hin]|(e' & Hin & Hu & Hn)]; [|by left|].
        -- right. exists e. split_and!; [apply elem_of_cons; by left|done|done].
        -- right. exists e'. split_and!; [apply elem_of_cons; by right|done|done].
      * intros [Hin|(e' & [->|Hin]%elem_of_cons & Hu & Hn)];
          [by left; right|by left; left|].
        right. by exists e'.
    + split.
      * intros [Hin|(e' & Hin & Hu & Hn)]; [by left|].
        right. exists e'. split_and!; [apply elem_of_cons; by right|done|done].
      * intros [Hin|(e' & [->|Hin]%elem_of_cons & Hu & Hn)]; [by left|done|].
        right. by exists e'.
Qed.

Lemma hasApp_in_elem u n m :
  hasApp_in u n m = true ↔ ∃ e, e ∈ m ∧ e.1 = u ∧ packageName e.2 = n.
Proof.
  rewrite hasApp_in_true, list_elem_of_fmap. unfold app_key. split.
  - intros (e & [= -> ->] & Hin). by exists e.
  - intros (e & Hin & <- & <-). by exists e.
Qed.

Lemma tolower_idemp c : tolower (tolower c) = tolower c.
Proof. by destruct c as [[] [] [] [] [] [] [] []]. Qed.

Lemma normalizeAppName_idemp a : normalizeAppName (normalizeAppName a) = normalizeAppName a.
Proof. induction a as [|c a IH]; simpl; [done|]. by rewrite tolower_idemp, IH. Qed.

Lemma mMap_charge_change r s : mMap (charge_change r s) = mMap s.
Proof. done. Qed.

(** X1: in every state that calls lead to from a new object, what
    [getBytesUsed] answers is, as a [size_t], the sum over the retained
    snapshots of their size plus [kBytesTimestampField] and over the
    retained changes of [kBytesChangeRecord]. *)
Theorem X1_bytes_used_accounts_for_logs override cs s :
  run cs (UidMap_new (ConfigKey := ConfigKey) override) = Some s →
  getBytesUsed s =
    to_size_t (snapshots_cost (mSnapshots s) + changes_cost (mChanges s)) ∧
  0 ≤ getBytesUsed s < size_t_modulus.
Proof.
  intros Hrun. pose proof (run_accounted _ _ _ Hrun) as Hacc.
  split; [exact Hacc|by apply accounted_range].
Qed.

(** X2: on every state that calls lead to, [updateApp] and [removeApp]
    return, and they leave [mBytesUsed] at or under the limit. *)
Theorem X2_changes_return_within_budget override cs s timestamp app uid versionCode :
  run cs (UidMap_new (ConfigKey := ConfigKey) override) = Some s →
  (∃ s', updateApp timestamp app uid versionCode s = Some s' ∧
         mBytesUsed s' ≤ limit s') ∧
  (∃ s', removeApp timestamp app uid s = Some s' ∧ mBytesUsed s' ≤ limit s').
Proof.
  intros Hrun. pose proof (run_accounted _ _ _ Hrun) as Hacc. split.
  - destruct (updateApp_returns timestamp app uid versionCode s Hacc) as [s' Hs'].
    exists s'. split; [done|by eapply updateApp_below_limit].
  - destruct (removeApp_returns timestamp app uid s Hacc) as [s' Hs'].
    exists s'. split; [done|by eapply removeApp_below_limit].
Qed.

(** X3: on every state that calls lead to, [updateMap] with
    [versionCode] and [packageName] at least as long as [uid] returns.
    [mMap] then holds, in some order, the one entry per index below
    [uid.size()] that the call brings, and nothing of what it held
    before; [mBytesUsed] is at or under the limit; and what lies beyond
    [uid.size()] in the two vectors is not read: the call with the
    vectors cut to that length ends in the same state. *)
Theorem X3_updateMap_replaces_map override cs s timestamp uid versionCode packageName :
  run cs (UidMap_new (ConfigKey := ConfigKey) override) = Some s →
  (length uid ≤ length versionCode)%nat → (length uid ≤ length packageName)%nat →
  ∃ s', updateMap timestamp uid versionCode packageName s = Some s' ∧
        mMap s' ≡ₚ zip_with (λ u pv, (u, mkAppData pv.1 pv.2)) uid
                            (zip packageName versionCode) ∧
        (∀ u n, hasApp u n s' = true ↔ (u, n) ∈ zip uid packageName) ∧
        mBytesUsed s' ≤ limit s' ∧
        updateMap timestamp uid (take (length uid) versionCode)
                  (take (length uid) packageName) s = Some s'.
Proof.
  intros Hrun Hv Hp. pose proof (run_accounted _ _ _ Hrun) as Hacc.
  pose proof (read_packages_long_enough uid versionCode packageName Hv Hp) as Hread.
  destruct (updateMap_returns timestamp uid versionCode packageName s Hacc) as [s' Hs'].
  { rewrite Hread. eauto. }
  exists s'. pose proof (updateMap_below_limit _ _ _ _ _ _ Hs') as Hle.
  pose proof Hs' as Hframe. unfold updateMap in Hframe. rewrite Hread in Hframe.
  simpl in Hframe. apply ensure_frame in Hframe as [_ Hmap]. simpl in Hmap.
  split_and!; [done| | |done|].
  - by rewrite Hmap.
  - intros u n. unfold hasApp. rewrite Hmap, hasApp_in_true.
    by rewrite (read_packages_keys uid versionCode packageName).
  - unfold updateMap. rewrite read_packages_take. exact Hs'.
Qed.

(** X4: on every state that calls lead to, [updateApp] returns and the
    application is then in [mMap] with the version of the call, whether
    its change record survives the eviction or not; what [hasApp] and
    [getAppVersion] answer for any other uid or name is as before. *)
Theorem X4_updateApp_then_lookup override cs s timestamp app uid versionCode :
  run cs (UidMap_new (ConfigKey := ConfigKey) override) = Some s →
  ∃ s', updateApp timestamp app uid versionCode s = Some s' ∧
        hasApp uid app s' = true ∧ getAppVersion uid app s' = versionCode ∧
        ∀ u n, (u, n) ≠ (uid, app) →
               hasApp u n s' = hasApp u n s ∧
               getAppVersion u n s' = getAppVersion u n s.
Proof.
  intros Hrun. pose proof (run_accounted _ _ _ Hrun) as Hacc.
  pose (r := ChangeRecord.mk false timestamp app uid versionCode).
  destruct (ensure_loop_terminates (charge_change r s)) as [s1 Hs1];
    [by apply accounted_charge_change|].
  pose proof (ensure_frame _ _ Hs1) as [_ Hmap]. rewrite mMap_charge_change in Hmap.
  unfold updateApp. fold r. rewrite Hs1. simpl. eexists. split; [done|].
  unfold hasApp, getAppVersion.
  destruct (update_version uid app versionCode (mMap s1)) as [m|] eqn:Hup; simpl.
  - destruct (update_version_found _ _ _ _ _ Hup) as [Hh Hv].
    split_and!; [done|done|]. intros u n Hne. rewrite <- Hmap.
    by apply (update_version_other uid app versionCode).
  - pose proof (update_version_None_absent _ _ _ _ Hup) as Habs.
    destruct (lookup_snoc uid app (mMap s1) (uid, mkAppData app versionCode))
      as [Hh Hv].
    rewrite Hh, Hv, Habs. rewrite bool_decide_eq_true_2 by done.
    rewrite decide_True by done. split_and!; [done|done|].
    intros u n Hne. rewrite <- Hmap.
    destruct (lookup_snoc u n (mMap s1) (uid, mkAppData app versionCode))
      as [Hh' Hv'].
    assert (Hnot : ¬ is_app u n (uid, mkAppData app versionCode)).
    { intros [Hu Hn]. simpl in *. apply Hne. by subst. }
    rewrite Hh', Hv'. rewrite bool_decide_eq_false_2 by done.
    rewrite decide_False by done. rewrite orb_false_r. split; [done|].
    destruct (hasApp_in u n (mMap s1)) eqn:Hhas; [done|].
    by rewrite getAppVersion_in_absent.
Qed.

(** X5: on every state of a run whose [updateMap] calls bring pairwise
    different (uid, package) pairs, [removeApp] returns and the
    application is then gone: [hasApp] answers false and [getAppVersion]
    0 for it, and for any other uid or name they answer as before. *)
Theorem X5_removeApp_then_lookup override cs s timestamp app uid :
  Forall distinct_packages cs →
  run cs (UidMap_new (ConfigKey := ConfigKey) override) = Some s →
  ∃ s', removeApp timestamp app uid s = Some s' ∧
        hasApp uid app s' = false ∧ getAppVersion uid app s' = 0 ∧
        ∀ u n, (u, n) ≠ (uid, app) →
               hasApp u n s' = hasApp u n s ∧
               getAppVersion u n s' = getAppVersion u n s.
Proof.
  intros Hcs Hrun. pose proof (run_accounted _ _ _ Hrun) as Hacc.
  pose proof (run_unique_apps _ _ _ Hcs Hrun) as Huniq.
  pose (r := ChangeRecord.mk true timestamp app uid 0).
  destruct (ensure_loop_terminates (charge_change r s)) as [s1 Hs1];
    [by apply accounted_charge_change|].
  pose proof (ensure_frame _ _ Hs1) as [_ Hmap]. rewrite mMap_charge_change in Hmap.
  unfold removeApp. fold r. rewrite Hs1. simpl. eexists. split; [done|].
  unfold hasApp, getAppVersion. simpl. rewrite Hmap.
  assert (Hgone : hasApp_in uid app (erase_app uid app (mMap s)) = false)
    by (by apply erase_app_gone).
  split_and!; [done|by apply getAppVersion_in_absent|].
  intros u n Hne. by apply erase_app_other.
Qed.

(** X6: the lookups agree with each other.  A name is among
    [getAppNamesFromUid uid false] exactly when [hasApp] holds for the uid
    and the name, a uid is among [getAppUid package] exactly when [hasApp]
    holds for it and the package, [getAppVersion] answers 0 where [hasApp]
    does not hold, and the names of [getAppNamesFromUid uid true] are the
    normalized names of the uid. *)
Theorem X6_lookups_agree s u n :
  (n ∈ getAppNamesFromUid u false s ↔ hasApp u n s = true) ∧
  (u ∈ getAppUid n s ↔ hasApp u n s = true) ∧
  (hasApp u n s = false → getAppVersion u n s = 0) ∧
  (n ∈ getAppNamesFromUid u true s ↔
   ∃ n0, hasApp u n0 s = true ∧ n = normalizeAppName n0).
Proof.
  unfold getAppNamesFromUid, getAppUid, hasApp, getAppVersion. split_and!.
  - rewrite getAppNamesFromUid_in_spec, hasApp_in_elem. split.
    + intros [Hin|(e & Hin & Hu & ->)]; [by apply not_elem_of_empty in Hin|].
      by exists e.
    + intros (e & Hin & Hu & <-). right. by exists e.
  - rewrite getAppUid_in_spec, hasApp_in_elem. split.
    + intros [Hin|Hex]; [by apply not_elem_of_empty in Hin|done].
    + intros Hex. by right.
  - apply getAppVersion_in_absent.
  - rewrite getAppNamesFromUid_in_spec. split.
    + intros [Hin|(e & Hin & Hu & ->)]; [by apply not_elem_of_empty in Hin|].
      exists (packageName e.2). split; [|done].
      apply hasApp_in_elem. by exists e.
    + intros (n0 & (e & Hin & Hu & <-)%hasApp_in_elem & ->). right. by exists e.
Qed.

(** X7: [normalizeAppName] keeps the length of a name and changes
    nothing when applied a second time, so every name that
    [getAppNamesFromUid uid true] returns is its own normal form. *)
Theorem X7_normalized_names_are_normal s u n :
  String.length (normalizeAppName n) = String.length n ∧
  normalizeAppName (normalizeAppName n) = normalizeAppName n ∧
  ∀ n', n' ∈ getAppNamesFromUid u true s → normalizeAppName n' = n'.
Proof.
  split_and!.
  - induction n as [|c n IH]; simpl; [done|]. by rewrite IH.
  - apply normalizeAppName_idemp.
  - intros n'. unfold getAppNamesFromUid. rewrite getAppNamesFromUid_in_spec.
    intros [Hin|(e & _ & _ & ->)]; [by apply not_elem_of_empty in Hin|].
    apply normalizeAppName_idemp.
Qed.

End Lookups.

Section Reports.
Context `{Externals}.
Context {ConfigKey : Type} `{EqDecision ConfigKey}.
Implicit Types s : UidMap (ConfigKey := ConfigKey).
Implicit Types t : list (ConfigKey * Z).

Lemma touched_default key t t' :
  touched key t t' → default 0 (wm_find key t') = default 0 (wm_find key t).
Proof.
  intros [->|[Hn ->]]; [done|]. by rewrite wm_find_head, Hn.
Qed.

Lemma wm_index_default key t :
  (wm_index key t).1 = default 0 (wm_find key t) ∧
  default 0 (wm_find key (wm_index key t).2) = default 0 (wm_find key t).
Proof.
  split; [|apply touched_default, wm_index_touched].
  unfold wm_index. by destruct (wm_find key t).
Qed.

Lemma append_changes_selected key l t :
  (append_changes key l t).1 =
  written_change <$> filter (λ r, default 0 (wm_find key t) < ChangeRecord.timestampNs r) l.
Proof.
  revert t. induction l as [|r l IH]; intros t; simpl; [done|].
  destruct (wm_index_default key t) as [Hv Hd].
  destruct (wm_index key t) as [last t1]. simpl in Hv, Hd. subst last.
  specialize (IH t1). rewrite Hd in IH.
  destruct (append_changes key l t1) as [out t2]. simpl in IH.
  destruct (decide (default 0 (wm_find key t) < ChangeRecord.timestampNs r))
    as [Hlt|Hlt].
  - rewrite filter_cons_True by done. rewrite fmap_cons. simpl. by rewrite IH.
  - rewrite filter_cons_False by done. done.
Qed.

Lemma append_snapshots_selected key size l a c t :
  1 < size < size_t_modulus → (a = false → c = 0) →
  (append_snapshots key size l a c t).1 =
  filter (λ r, default 0 (wm_find key t) < SnapshotRecord.timestampNs r) l.
Proof.
  intros Hsize. revert a c t. induction l as [|r l IH]; intros a c t Hac; simpl; [done|].
  assert (Hleft : bool_decide (c = to_size_t (size - 1)) && negb a = false).
  { destruct a; [apply andb_false_r|]. rewrite Hac by done.
    rewrite bool_decide_eq_false_2; [done|]. rewrite to_size_t_small by lia. lia. }
  rewrite Hleft. clear Hleft.
  destruct (wm_index_default key t) as [Hv Hd].
  destruct (wm_index key t) as [last t1]. simpl in Hv, Hd. subst last.
  destruct (decide (default 0 (wm_find key t) < SnapshotRecord.timestampNs r))
    as [Hlt|Hlt].
  - specialize (IH true (to_uint (c + 1)) t1 ltac:(done)). rewrite Hd in IH.
    destruct (append_snapshots key size l true _ t1) as [out t2]. simpl in IH.
    rewrite filter_cons_True by done. simpl. by rewrite IH.
  - rewrite filter_cons_False by done. rewrite IH by done. by rewrite Hd.
Qed.

Lemma report_appendUidMap timestamp key s :
  (appendUidMap timestamp key s).1 = (append_select key s).1.
Proof. unfold appendUidMap. by destruct (append_select key s). Qed.

Lemma filter_none {A} (P : A → Prop) `{!∀ x, Decision (P x)} (l : list A) :
  Forall (λ x, ¬ P x) l → filter P l = [].
Proof.
  induction 1 as [|x l Hx Hl IH]; [done|]. by rewrite filter_cons_False.
Qed.

Lemma mChanges_appendUidMap timestamp key s :
  mChanges (appendUidMap timestamp key s).2 = mChanges s ∨
  mChanges (appendUidMap timestamp key s).2 =
    filter (λ r, newMin timestamp key s ≤ ChangeRecord.timestampNs r) (mChanges s).
Proof.
  rewrite appendUidMap_state. simpl. case_decide; [|by left].
  right. by rewrite mChanges_resynthesize, mChanges_purge.
Qed.

Lemma fold_min_step_never_served t m :
  -1 ≤ m → Forall (λ kv, -1 ≤ kv.2) t → (m = -1 ∨ ∃ k, (k, -1) ∈ t) →
  fold_left min_step t m = -1.
Proof.
  revert m. induction t as [|[k0 v0] t IH]; intros m Hm Hall Hin; simpl.
  - destruct Hin as [->|[k Hk]]; [done|by apply elem_of_nil in Hk].
  - apply Forall_cons in Hall as [Hv0 Hall]. simpl in Hv0.
    apply IH; [|done|].
    + unfold min_step. simpl. repeat case_decide; lia.
    + destruct Hin as [->|[k [[= -> <-]|Hk]%elem_of_cons]].
      * left. unfold min_step. simpl. repeat case_decide; lia.
      * left. unfold min_step. simpl. repeat case_decide; lia.
      * right. by exists k.
Qed.

(** While a key of the table has never been served and nothing in the
    table is below -1, [getMinimumTimestampNs] answers -1, zeros or not. *)
Lemma min_of_table_never_served t k :
  Forall (λ kv, -1 ≤ kv.2) t → (k, -1) ∈ t → min_of_table t = -1.
Proof.
  intros Hall Hin. apply fold_min_step_never_served; [lia|done|]. right. by exists k.
Qed.

Lemma elem_of_wm_replace_ne key v t k x :
  k ≠ key → (k, x) ∈ t → (k, x) ∈ wm_replace key v t.
Proof.
  intros Hne. induction t as [|[k' x'] t IH]; simpl.
  - intros Hin. by apply elem_of_nil in Hin.
  - rewrite elem_of_cons. case_decide as Hk.
    + intros [[= -> ->]|Hin]; [by subst|]. apply elem_of_cons. by right.
    + intros [Heq|Hin]; apply elem_of_cons; [by left|right; by apply IH].
Qed.

Lemma elem_of_wm_assign_ne key v t k x :
  k ≠ key → (k, x) ∈ t → (k, x) ∈ wm_assign key v t.
Proof.
  intros Hne Hin. unfold wm_assign. destruct (wm_find key t).
  - by apply elem_of_wm_replace_ne.
  - apply elem_of_cons. by right.
Qed.

Lemma Forall_wm_replace (P : ConfigKey * Z → Prop) key v t :
  (∀ k, P (k, v)) → Forall P t → Forall P (wm_replace key v t).
Proof.
  intros Hv. induction 1 as [|[k x] t Hx Ht IH]; simpl; [done|].
  case_decide; apply Forall_cons; split; try done; apply Hv.
Qed.

Lemma Forall_wm_assign (P : ConfigKey * Z → Prop) key v t :
  (∀ k, P (k, v)) → Forall P t → Forall P (wm_assign key v t).
Proof.
  intros Hv Ht. unfold wm_assign. destruct (wm_find key t).
  - by apply Forall_wm_replace.
  - apply Forall_cons. split; [apply Hv|done].
Qed.

Lemma touched_Forall (P : ConfigKey * Z → Prop) key t t' :
  P (key, 0) → touched key t t' → Forall P t → Forall P t'.
Proof.
  intros H0 [->|[_ ->]] Ht; [done|]. apply Forall_cons. by split.
Qed.

Lemma touched_elem_of key t t' kv : touched key t t' → kv ∈ t → kv ∈ t'.
Proof. intros [->|[_ ->]] Hin; [done|]. apply elem_of_cons. by right. Qed.

(** After the charge of one change the eviction stops before it would
    take that change, if one change record alone fits the budget. *)
Lemma charged_change_survives r s :
  accounted s → to_size_t kBytesChangeRecord ≤ limit s →
  ∃ s1, ensureBytesUsedBelowLimit (charge_change r s) = Some s1 ∧
        last (mChanges s1) = Some r.
Proof.
  intros Hacc Hfits.
  pose proof (accounted_charge_change r s Hacc) as Hacc0.
  remember (charge_change r s) as s0 eqn:Hs0.
  assert (Hch : mChanges s0 = mChanges s ++ [r]) by (by subst).
  assert (Hlim : limit s0 = limit s) by (by subst).
  clear Hs0.
  pose proof (accounted_range _ Hacc0) as Hr0.
  destruct (ensure_loop_terminates s0 Hacc0) as [s1 Hs1].
  exists s1. split; [done|].
  unfold ensureBytesUsedBelowLimit in Hs1.
  apply ensure_loop_turns in Hs1 as (n & Hn & -> & _ & Hbefore).
  fold (retained s0) in Hn.
  assert (Hret : retained s0 =
                 (length (mSnapshots s0) + S (length (mChanges s)))%nat).
  { unfold retained. rewrite Hch, length_app. simpl. lia. }
  assert (Hlt : (n < retained s0)%nat).
  { destruct (decide (n < retained s0)%nat) as [|Hge]; [done|]. exfalso.
    specialize (Hbefore (length (mSnapshots s0) + length (mChanges s))%nat ltac:(lia)).
    pose proof (accounted_iter_evict
                  (length (mSnapshots s0) + length (mChanges s)) s0 Hacc0) as Hacc1.
    rewrite iter_evict in Hbefore, Hacc1 by (done || lia).
    rewrite Nat.min_r in Hbefore, Hacc1 by lia.
    replace (length (mSnapshots s0) + length (mChanges s) - length (mSnapshots s0))%nat
      with (length (mChanges s)) in * by lia.
    unfold accounted in Hacc1. rewrite Hacc1 in Hbefore. simpl in Hbefore.
    rewrite drop_all, Hch, drop_app_length in Hbefore.
    unfold changes_cost in Hbefore. simpl in Hbefore. rewrite Hlim in Hbefore.
    replace (1 * kBytesChangeRecord) with kBytesChangeRecord in Hbefore by lia.
    rewrite Z.add_0_l in Hbefore. lia. }
  rewrite iter_evict by (done || lia). simpl. rewrite Hch.
  rewrite drop_app_le by lia. apply last_snoc.
Qed.

Lemma iso_evict s : mIsolatedUidMap (evict s) = mIsolatedUidMap s.
Proof. unfold evict. destruct (mSnapshots s); [destruct (mChanges s)|]; done. Qed.

Lemma iso_ensure s s' :
  ensureBytesUsedBelowLimit s = Some s' → mIsolatedUidMap s' = mIsolatedUidMap s.
Proof.
  intros Hrun. apply ensure_loop_turns in Hrun as (n & _ & -> & _).
  induction n as [|n IH]; simpl; [done|]. by rewrite iso_evict.
Qed.

Lemma iso_appendUidMap timestamp key s :
  mIsolatedUidMap (appendUidMap timestamp key s).2 = mIsolatedUidMap s.
Proof.
  rewrite appendUidMap_state. simpl. case_decide; [|done].
  unfold resynthesize, purge.
  destruct (purge_snapshots _ _ _) as [snaps b1].
  destruct (purge_changes _ _ _) as [chgs b2]. simpl. by destruct snaps.
Qed.

Lemma wm_find_None_keys key t : wm_find key t = None ↔ key ∉ t.*1.
Proof.
  induction t as [|[k x] t IH]; simpl.
  - split; [|done]. intros _ Hin. by apply elem_of_nil in Hin.
  - rewrite not_elem_of_cons. destruct (decide (k = key)) as [->|Hk].
    + split; [done|]. by intros [Hne _].
    + rewrite IH. split; [by split|by intros [_ ?]].
Qed.

Lemma keys_wm_replace key v t : (wm_replace key v t).*1 = t.*1.
Proof.
  induction t as [|[k x] t IH]; [done|]. simpl.
  destruct (decide (k = key)) as [->|Hk]; [done|]. by rewrite !fmap_cons, IH.
Qed.

Lemma keys_wm_assign key v t :
  (wm_assign key v t).*1 = if wm_find key t is Some _ then t.*1 else key :: t.*1.
Proof.
  unfold wm_assign. destruct (wm_find key t); [apply keys_wm_replace|done].
Qed.

Lemma NoDup_cons_key key t : wm_find key t = None → NoDup t.*1 → NoDup (key :: t.*1).
Proof.
  intros Hn Hnd. apply NoDup_cons. split; [|done]. by apply wm_find_None_keys.
Qed.

Lemma NoDup_wm_assign key v t : NoDup t.*1 → NoDup (wm_assign key v t).*1.
Proof.
  intros Hnd. rewrite keys_wm_assign.
  destruct (wm_find key t) eqn:Hf; [done|]. by apply NoDup_cons_key.
Qed.

Lemma keys_wm_erase_subset key t k : k ∈ (wm_erase key t).*1 → k ∈ t.*1.
Proof.
  induction t as [|[k' x] t IH]; simpl; [done|].
  destruct (decide (k' = key)) as [->|Hk]; simpl; rewrite ?elem_of_cons.
  - by right.
  - intros [->|Hin]; [by left|right; by apply IH].
Qed.

Lemma NoDup_wm_erase key t : NoDup t.*1 → NoDup (wm_erase key t).*1.
Proof.
  induction t as [|[k x] t IH]; simpl; [done|].
  rewrite NoDup_cons. intros [Hnot Hnd]. case_decide; [done|]. simpl.
  apply NoDup_cons. split; [|by apply IH].
  intros Hin. by apply Hnot, (keys_wm_erase_subset key).
Qed.

Lemma wm_find_erase_eq key t : NoDup t.*1 → wm_find key (wm_erase key t) = None.
Proof.
  induction t as [|[k x] t IH]; simpl; [done|].
  rewrite NoDup_cons. intros [Hnot Hnd]. case_decide as Hk.
  - subst. by apply wm_find_None_keys.
  - simpl. rewrite decide_False by done. by apply IH.
Qed.

Lemma touched_NoDup key t t' : touched key t t' → NoDup t.*1 → NoDup t'.*1.
Proof.
  intros [->|[Hn ->]] Hnd; [done|]. rewrite fmap_cons. simpl. by apply NoDup_cons_key.
Qed.

Lemma NoDup_keys_call c s s' :
  NoDup (mLastUpdatePerConfigKey s).*1 → call c s = Some s' →
  NoDup (mLastUpdatePerConfigKey s').*1.
Proof.
  intros Hnd Hcall.
  destruct c as [ts us vs ps|ts app u v|ts app u|ts k|k|k|i p|i p|];
    try (match type of Hcall with
         | call ?c _ = _ => by rewrite (table_call_other c s s' I Hcall)
         end).
  - simpl in Hcall. injection Hcall as <-. rewrite table_appendUidMap.
    apply NoDup_wm_assign. eapply touched_NoDup; [apply append_select_touched|done].
  - simpl in Hcall. injection Hcall as <-. simpl. by apply NoDup_wm_assign.
  - simpl in Hcall. injection Hcall as <-. simpl. by apply NoDup_wm_erase.
Qed.

#[local] Set Warnings "-clear-no-such-hyp".

Lemma foldl_copy_or_erase promote l acc :
  let r := foldl (copy_or_erase promote) acc l in
  (∀ w, w ∈ r.1 ↔ w ∈ acc.1 ∨ (w ∈ l ∧ promote w = true)) ∧
  (∀ w, w ∈ r.2 ↔ w ∈ acc.2 ∧ ¬ (w ∈ l ∧ promote w = false)) ∧
  (NoDup acc.1 → NoDup l → (∀ w, w ∈ l → w ∉ acc.1) → NoDup r.1).
Proof.
  revert acc. induction l as [|x l IH]; intros [out subs]; simpl.
  - split_and!; [|set_solver|done].
    intros w. split; [by left|]. intros [?|[Hin _]]; [done|by apply elem_of_nil in Hin].
  - destruct (IH (copy_or_erase promote (out, subs) x)) as (IH1 & IH2 & IH3).
    unfold copy_or_erase in *. simpl in *.
    destruct (promote x) eqn:Hx; simpl in *.
    + split_and!.
      * intros w. rewrite IH1, elem_of_app, list_elem_of_singleton, elem_of_cons.
        naive_solver.
      * intros w. rewrite IH2, elem_of_cons. split; [|naive_solver].
        intros [Hin Hnot]. split; [done|]. intros [[->|Hl] Hw]; [congruence|].
        by apply Hnot.
      * intros Hout [Hxl Hl]%NoDup_cons Hfresh. apply IH3; [|done|].
        -- apply NoDup_app. split_and!; [done| |apply NoDup_singleton].
           intros w Hw ->%list_elem_of_singleton.
           apply (Hfresh x); [apply elem_of_cons; by left|done].
        -- intros w Hw. apply not_elem_of_app. split.
           ++ apply Hfresh. apply elem_of_cons. by right.
           ++ intros ->%list_elem_of_singleton. done.
    + split_and!.
      * intros w. rewrite IH1, elem_of_cons. split; [naive_solver|].
        intros [Hin|[[->|Hl] Hw]]; [by left|congruence|by right].
      * intros w. rewrite IH2, elem_of_difference, elem_of_singleton, elem_of_cons.
        split.
        -- intros [[Hin Hne] Hnot]. split; [done|]. intros [[->|Hl] Hw]; [done|].
           by apply Hnot.
        -- intros [Hin Hnot]. split_and!; [done| |].
           ++ intros ->. apply Hnot. split; [by left|done].
           ++ intros [Hl Hw]. apply Hnot. split; [by right|done].
      * intros Hout [Hxl Hl]%NoDup_cons Hfresh. apply IH3; [done|done|].
        intros w Hw. apply Hfresh. apply elem_of_cons. by right.
Qed.

Lemma changes_append_select key s :
  changes (append_select key s).1 =
  written_change <$>
    filter (λ r, default 0 (wm_find key (mLastUpdatePerConfigKey s))
                 < ChangeRecord.timestampNs r) (mChanges s).
Proof.
  unfold append_select.
  rewrite <- (append_changes_selected key (mChanges s) (mLastUpdatePerConfigKey s)).
  destruct (append_changes key _ _) as [cs t1].
  by destruct (append_snapshots key _ _ _ _ t1) as [ss t2].
Qed.

(** X8: the changes that [appendUidMap] writes are exactly the retained
    changes whose time is after the last report of the key, in the order
    of the log, each with its deletion flag, time and package as stored
    and with its uid and version cast to [int]; for a key that is not in
    the table the loop reads 0 as its last report. *)
Theorem X8_reported_changes timestamp key s :
  changes (appendUidMap timestamp key s).1 =
  (λ record, ChangeRecord.mk (ChangeRecord.deletion record)
                             (ChangeRecord.timestampNs record)
                             (ChangeRecord.package record)
                             (to_int (ChangeRecord.uid record))
                             (to_int (ChangeRecord.version record))) <$>
    filter (λ r, default 0 (wm_find key (mLastUpdatePerConfigKey s))
                 < ChangeRecord.timestampNs r) (mChanges s).
Proof.
  rewrite report_appendUidMap. apply changes_append_select.
Qed.

(** X9: for a snapshot log whose size fits a [size_t], the snapshots
    that [appendUidMap] writes are the log itself when it holds exactly
    one snapshot, and otherwise exactly the retained snapshots whose time
    is after the last report of the key (0 for a key that is not in the
    table), in the order of the log. *)
Theorem X9_reported_snapshots timestamp key s :
  Z.of_nat (length (mSnapshots s)) < size_t_modulus →
  snapshots (appendUidMap timestamp key s).1 =
  if decide (length (mSnapshots s) = 1%nat) then mSnapshots s
  else filter (λ r, default 0 (wm_find key (mLastUpdatePerConfigKey s))
                    < SnapshotRecord.timestampNs r) (mSnapshots s).
Proof.
  intros Hsize. rewrite report_appendUidMap. unfold append_select.
  pose proof (append_changes_touched key (mChanges s) (mLastUpdatePerConfigKey s))
    as [Ht _].
  apply touched_default in Ht.
  destruct (append_changes key _ _) as [cs t1]. simpl in Ht.
  destruct (mSnapshots s) as [|r [|r' l]] eqn:Hsn.
  - done.
  - done.
  - rewrite decide_False by done.
    pose proof (append_snapshots_selected key (Z.of_nat (length (r :: r' :: l)))
                  (r :: r' :: l) false 0 t1) as Hsel.
    destruct (append_snapshots key _ _ _ _ t1) as [ss t2]. simpl in Hsel |- *.
    rewrite Hsel, Ht; [done| |done].
    simpl in Hsize. lia.
Qed.

(** X10: when no retained change is stamped later than the time of an
    [appendUidMap], the next [appendUidMap] for the same key, at whatever
    time, writes no change. *)
Theorem X10_second_report_has_no_changes timestamp timestamp' key s :
  Forall (λ r, ChangeRecord.timestampNs r ≤ timestamp) (mChanges s) →
  changes (appendUidMap timestamp' key (appendUidMap timestamp key s).2).1 = [].
Proof.
  intros Hold. rewrite report_appendUidMap, changes_append_select.
  rewrite table_appendUidMap, wm_find_assign_eq. simpl.
  rewrite filter_none; [done|].
  destruct (mChanges_appendUidMap timestamp key s) as [-> | ->].
  - eapply Forall_impl; [exact Hold|]. simpl. lia.
  - apply Forall_forall. intros r [_ Hin]%list_elem_of_filter.
    pose proof (proj1 (Forall_forall _ _) Hold r Hin). simpl in *. lia.
Qed.

End Reports.

Section Guarantees.
Context `{Externals}.
Context {ConfigKey : Type} `{EqDecision ConfigKey}.
Implicit Types s : UidMap (ConfigKey := ConfigKey).
Implicit Types t : list (ConfigKey * Z).

(** X11: while some other key of the table has never been served (its
    last report is -1), and neither a stored last report nor the time of
    the call is below -1, [appendUidMap] purges nothing: both logs and
    [mBytesUsed] are as before, whether the table holds zeros or not and
    whether the key of the call is in the table or not. *)
Theorem X11_never_served_key_holds_back_purge timestamp key k s :
  k ≠ key → (k, -1) ∈ mLastUpdatePerConfigKey s →
  Forall (λ kv, -1 ≤ kv.2) (mLastUpdatePerConfigKey s) → -1 ≤ timestamp →
  let s' := (appendUidMap timestamp key s).2 in
  mChanges s' = mChanges s ∧ mSnapshots s' = mSnapshots s ∧
  mBytesUsed s' = mBytesUsed s ∧ mMap s' = mMap s.
Proof.
  intros Hk Hin Hall Hts s'. subst s'.
  pose proof (append_select_touched key s) as Ht.
  assert (Hprev : prevMin key s = -1).
  { unfold prevMin. apply (min_of_table_never_served _ k).
    - by eapply touched_Forall; [|exact Ht|].
    - by eapply touched_elem_of. }
  assert (Hnew : newMin timestamp key s = -1).
  { unfold newMin. apply (min_of_table_never_served _ k).
    - apply Forall_wm_assign; [done|]. by eapply touched_Forall; [|exact Ht|].
    - apply elem_of_wm_assign_ne; [done|]. by eapply touched_elem_of. }
  rewrite appendUidMap_state. simpl. rewrite Hprev, Hnew.
  by rewrite decide_False by lia.
Qed.

(** X12: with both logs empty, no 0 among the stored last reports and a
    time of the call that is not 0, [appendUidMap] writes nothing; the
    key then has the time of the call as its last report and the other
    keys have theirs as before.  The log of
    changes stays empty.  The log of snapshots gets one fresh snapshot of
    [mMap], stamped with the time of the call, exactly when the least of
    the last reports has gone up over the call (for a table that was
    empty: when the time of the call is above 0), and stays empty
    otherwise.  None of this depends on the order of the table. *)
Theorem X12_report_on_empty_logs timestamp key s :
  mSnapshots s = [] → mChanges s = [] →
  no_zero (mLastUpdatePerConfigKey s) → timestamp ≠ 0 →
  let s' := (appendUidMap timestamp key s).2 in
  let fresh :=
    SnapshotRecord.mk timestamp
      (proto_package_info
         ((λ e : Z * AppData, (packageName e.2, to_int (versionCode e.2), to_int e.1))
            <$> mMap s)) in
  (appendUidMap timestamp key s).1 = mkReport [] [] ∧
  wm_find key (mLastUpdatePerConfigKey s') = Some timestamp ∧
  (∀ k, k ≠ key →
        wm_find k (mLastUpdatePerConfigKey s') = wm_find k (mLastUpdatePerConfigKey s)) ∧
  mChanges s' = [] ∧
  (mLastUpdatePerConfigKey s = [] →
   mSnapshots s' = if decide (0 < timestamp) then [fresh] else []) ∧
  (∀ m m', is_min_watermark m (mLastUpdatePerConfigKey s) →
           is_min_watermark m' (mLastUpdatePerConfigKey s') →
           mSnapshots s' = if decide (m < m') then [fresh] else []).
Proof.
  intros Hsn Hch Hnz Hts s' fresh. subst s' fresh.
  assert (Hsel : append_select key s = (mkReport [] [], mLastUpdatePerConfigKey s)).
  { unfold append_select. by rewrite Hsn, Hch. }
  assert (Hlog : mSnapshots (appendUidMap timestamp key s).2 =
                 if decide (min_of_table (mLastUpdatePerConfigKey s) <
                            min_of_table (wm_assign key timestamp (mLastUpdatePerConfigKey s)))
                 then [fresh_snapshot timestamp s] else []).
  { rewrite appendUidMap_state. unfold prevMin, newMin. rewrite Hsel. simpl.
    case_decide; [|done].
    unfold resynthesize. rewrite mSnapshots_purge. simpl. rewrite Hsn. simpl.
    unfold fresh_snapshot. by rewrite mMap_purge. }
  assert (Hnz' : no_zero (wm_assign key timestamp (mLastUpdatePerConfigKey s))).
  { by apply Forall_wm_assign. }
  assert (Hne' : wm_assign key timestamp (mLastUpdatePerConfigKey s) ≠ []).
  { intros Hnil. pose proof (wm_find_assign_eq key timestamp (mLastUpdatePerConfigKey s)) as Hf.
    by rewrite Hnil in Hf. }
  rewrite report_appendUidMap, table_appendUidMap, Hsel. simpl.
  split_and!.
  - done.
  - apply wm_find_assign_eq.
  - intros k Hk. by apply wm_find_assign_ne.
  - rewrite appendUidMap_state. unfold prevMin, newMin. rewrite Hsel. simpl.
    case_decide; [|done]. rewrite mChanges_resynthesize, mChanges_purge. simpl.
    by rewrite Hch.
  - intros Hnil. rewrite Hlog, Hnil. unfold wm_assign, min_of_table. simpl.
    unfold min_step. simpl. done.
  - intros m m' Hm Hm'. rewrite Hlog.
    assert (Hne : mLastUpdatePerConfigKey s ≠ []).
    { intros Hnil. rewrite Hnil in Hm. destruct Hm as [[k Hk] _].
      by apply elem_of_nil in Hk. }
    rewrite (is_min_watermark_unique _ _ _ (min_of_table_is_min _ Hne Hnz) Hm).
    rewrite (is_min_watermark_unique _ _ _ (min_of_table_is_min _ Hne' Hnz') Hm').
    done.
Qed.

(** X13: on every state that calls lead to, if one change record alone
    fits the budget, the record that [updateApp] or [removeApp] appends is
    still the last of [mChanges] when the call returns: the eviction for a
    new change never takes that change. *)
Theorem X13_new_change_survives override cs s timestamp app uid versionCode :
  run cs (UidMap_new (ConfigKey := ConfigKey) override) = Some s →
  to_size_t kBytesChangeRecord ≤ limit s →
  (∃ s', updateApp timestamp app uid versionCode s = Some s' ∧
         last (mChanges s') = Some (ChangeRecord.mk false timestamp app uid versionCode)) ∧
  (∃ s', removeApp timestamp app uid s = Some s' ∧
         last (mChanges s') = Some (ChangeRecord.mk true timestamp app uid 0)).
Proof.
  intros Hrun Hfits. pose proof (run_accounted _ _ _ Hrun) as Hacc. split.
  - destruct (charged_change_survives
                (ChangeRecord.mk false timestamp app uid versionCode) s Hacc Hfits)
      as (s1 & Hs1 & Hlast).
    unfold updateApp. rewrite Hs1. simpl. eexists. split; [done|].
    by destruct (update_version _ _ _ _).
  - destruct (charged_change_survives
                (ChangeRecord.mk true timestamp app uid 0) s Hacc Hfits)
      as (s1 & Hs1 & Hlast).
    unfold removeApp. rewrite Hs1. simpl. eexists. split; [done|done].
Qed.

(** X14: after [assignIsolatedUid] the isolated uid resolves to the
    parent of the call, also when it had another parent before, and every
    other uid resolves as before; [removeIsolatedUid] changes nothing for
    the other uids; and no call other than these two changes the table of
    isolated uids. *)
Theorem X14_isolated_uid_table isolatedUid parentUid u s :
  getHostUidOrSelf u (assignIsolatedUid isolatedUid parentUid s) =
    (if decide (u = isolatedUid) then parentUid else getHostUidOrSelf u s) ∧
  (u ≠ isolatedUid →
   getHostUidOrSelf u (removeIsolatedUid isolatedUid parentUid s) =
   getHostUidOrSelf u s) ∧
  ∀ c s', ¬ writes_isolated c → call c s = Some s' →
          getHostUidOrSelf u s' = getHostUidOrSelf u s.
Proof.
  split_and!.
  - unfold getHostUidOrSelf, assignIsolatedUid. simpl.
    case_decide as Hu.
    + subst. by rewrite lookup_insert_eq.
    + by rewrite lookup_insert_ne.
  - intros Hu. unfold getHostUidOrSelf, removeIsolatedUid.
    destruct (mIsolatedUidMap s !! isolatedUid); [|done]. simpl.
    by rewrite lookup_delete_ne.
  - intros c s' Hc Hcall. unfold getHostUidOrSelf.
    assert (Hiso : mIsolatedUidMap s' = mIsolatedUidMap s); [|by rewrite Hiso].
    destruct c; simpl in *; try (by injection Hcall as <-); try (by destruct Hc).
    + unfold updateMap in Hcall.
      destruct (read_packages _ _ _) as [entries|]; simpl in Hcall; [|done].
      by apply iso_ensure in Hcall.
    + unfold updateApp in Hcall.
      destruct (ensureBytesUsedBelowLimit _) as [s1|] eqn:Hrun; simpl in Hcall; [|done].
      apply iso_ensure in Hrun. injection Hcall as <-.
      by destruct (update_version _ _ _ _).
    + unfold removeApp in Hcall.
      destruct (ensureBytesUsedBelowLimit _) as [s1|] eqn:Hrun; simpl in Hcall; [|done].
      apply iso_ensure in Hrun. by injection Hcall as <-.
    + injection Hcall as <-. apply iso_appendUidMap.
Qed.

(** X15: [getListenerListCopyLocked], started with an empty output,
    returns each subscriber that is still alive once and no other, and
    leaves exactly the live subscribers in the set; so a listener that was
    removed is not in the list, and one that was added and is alive is. *)
Theorem X15_listener_copy_is_the_live_subscribers promote mSubscribers producer :
  let r := getListenerListCopyLocked promote mSubscribers [] in
  (∀ w, w ∈ r.1 ↔ w ∈ mSubscribers ∧ promote w = true) ∧ NoDup r.1 ∧
  (∀ w, w ∈ r.2 ↔ w ∈ mSubscribers ∧ promote w = true) ∧
  producer ∉ (getListenerListCopyLocked promote
                (removeListener producer mSubscribers) []).1 ∧
  (promote producer = true →
   producer ∈ (getListenerListCopyLocked promote
                 (addListener producer mSubscribers) []).1).
Proof.
  assert (Hcopy : ∀ subs,
    let r := getListenerListCopyLocked promote subs [] in
    (∀ w, w ∈ r.1 ↔ w ∈ subs ∧ promote w = true) ∧ NoDup r.1 ∧
    (∀ w, w ∈ r.2 ↔ w ∈ subs ∧ promote w = true)).
  { intros subs. unfold getListenerListCopyLocked.
    destruct (foldl_copy_or_erase promote (elements subs) ([], subs))
      as (H1 & H2 & H3). simpl in *. split_and!.
    - intros w. rewrite H1, elem_of_elements. split.
      + intros [Hin|?]; [by apply elem_of_nil in Hin|done].
      + intros ?. by right.
    - apply H3; [apply NoDup_nil_2|apply NoDup_elements|].
      intros w _ Hin. by apply elem_of_nil in Hin.
    - intros w. rewrite H2, elem_of_elements. split.
      + intros [Hin Hnot]. split; [done|].
        destruct (promote w) eqn:Hw; [done|]. exfalso. by apply Hnot.
      + intros [Hin Hw]. split; [done|]. intros [_ Hw']. congruence. }
  destruct (Hcopy mSubscribers) as (H1 & H2 & H3).
  split_and!; [done|done|done| |].
  - destruct (Hcopy (removeListener producer mSubscribers)) as (H1' & _ & _).
    rewrite H1'. unfold removeListener. set_solver.
  - intros Hlive.
    destruct (Hcopy (addListener producer mSubscribers)) as (H1' & _ & _).
    rewrite H1'. unfold addListener. set_solver.
Qed.

(** X16: in every state that calls lead to, no key is in
    [mLastUpdatePerConfigKey] twice; [OnConfigRemoved] then takes the key
    out of the table and leaves the other keys with their last reports,
    and [OnConfigUpdated] has the key in the table with -1. *)
Theorem X16_config_keys override cs s key :
  run cs (UidMap_new (ConfigKey := ConfigKey) override) = Some s →
  NoDup (mLastUpdatePerConfigKey s).*1 ∧
  wm_find key (mLastUpdatePerConfigKey (OnConfigRemoved key s)) = None ∧
  (∀ k, k ≠ key →
        wm_find k (mLastUpdatePerConfigKey (OnConfigRemoved key s)) =
        wm_find k (mLastUpdatePerConfigKey s)) ∧
  wm_find key (mLastUpdatePerConfigKey (OnConfigUpdated key s)) = Some (-1).
Proof.
  intros Hrun.
  assert (Hnd : NoDup (mLastUpdatePerConfigKey s).*1).
  { eapply (run_invariant (λ s, NoDup (mLastUpdatePerConfigKey s).*1));
      [intros c s0 s1; apply NoDup_keys_call| |exact Hrun].
    simpl. apply NoDup_nil_2. }
  split_and!; [done| | |].
  - simpl. by apply wm_find_erase_eq.
  - intros k Hk. simpl. by apply wm_find_erase_ne.
  - simpl. apply wm_find_assign_eq.
Qed.

End Guarantees.

(** X17: the table of reserved ids names no id twice and gives no uid
    twice, and all its uids are below 10000, where the uids of
    applications start. *)
Theorem X17_reserved_ids_do_not_overlap :
  NoDup sAidToUidMapping.*1 ∧ NoDup sAidToUidMapping.*2 ∧
  Forall (λ kv, 0 ≤ kv.2 < 10000) sAidToUidMapping.
Proof.
  split_and!; apply (bool_decide_unpack _); by vm_compute.
Qed.

(** * The further properties on concrete states *)

(** X1 at the end of [distinct_run]. *)
Lemma X1_witness :
  run distinct_run (UidMap_new 0) = Some distinct_run_end ∧
  getBytesUsed distinct_run_end =
    to_size_t (snapshots_cost (mSnapshots distinct_run_end) +
               changes_cost (mChanges distinct_run_end)) ∧
  0 ≤ getBytesUsed distinct_run_end < size_t_modulus.
Proof.
  assert (Hrun : run distinct_run (UidMap_new 0) = Some distinct_run_end)
    by (vm_compute; reflexivity).
  split; [exact Hrun|].
  exact (X1_bytes_used_accounts_for_logs 0 distinct_run distinct_run_end Hrun).
Defined.

(** X2 at the end of [tight_run]: the charge of either call brings the
    counter from 204 to 260, above the budget of 210, and the loop takes
    the snapshot and the change of 120 before the call returns. *)
Lemma X2_witness :
  run tight_run (UidMap_new 210) = Some tight_run_end ∧
  limit tight_run_end < mBytesUsed tight_run_end + kBytesChangeRecord ∧
  (mBytesUsed <$> updateApp 250 "com.d" 10005 7 tight_run_end) = Some 168 ∧
  (mSnapshots <$> removeApp 250 "com.d" 10005 tight_run_end) = Some [] ∧
  (∃ s', updateApp 250 "com.d" 10005 7 tight_run_end = Some s' ∧
         mBytesUsed s' ≤ limit s') ∧
  (∃ s', removeApp 250 "com.d" 10005 tight_run_end = Some s' ∧
         mBytesUsed s' ≤ limit s').
Proof.
  assert (Hrun : run tight_run (UidMap_new 210) = Some tight_run_end)
    by (vm_compute; reflexivity).
  split; [exact Hrun|]. split; [vm_compute; reflexivity|].
  split; [vm_compute; reflexivity|]. split; [vm_compute; reflexivity|].
  exact (X2_changes_return_within_budget 210 tight_run tight_run_end
           250 "com.d" 10005 7 Hrun).
Defined.

(** X3 at the end of [tight_run], for a full map of one application
    taken from vectors of two: com.e is not read, the three entries held
    before are gone, and the charge of the new snapshot evicts the old
    one. *)
Lemma X3_witness :
  run tight_run (UidMap_new 210) = Some tight_run_end ∧
  (length [10005%Z] ≤ length [7%Z; 8%Z])%nat ∧
  (length [10005%Z] ≤ length ["com.d"%string; "com.e"%string])%nat ∧
  ∃ s', updateMap 300 [10005] [7; 8] ["com.d"; "com.e"]%string tight_run_end = Some s' ∧
        mMap s' ≡ₚ [(10005, mkAppData "com.d" 7)] ∧
        (∀ u n, hasApp u n s' = true ↔ (u, n) ∈ [(10005, "com.d"%string)]) ∧
        mBytesUsed s' ≤ limit s' ∧
        updateMap 300 [10005] [7] ["com.d"%string] tight_run_end = Some s'.
Proof.
  assert (Hrun : run tight_run (UidMap_new 210) = Some tight_run_end)
    by (vm_compute; reflexivity).
  assert (H1 : (length [10005%Z] ≤ length [7%Z; 8%Z])%nat) by (simpl; lia).
  assert (H2 : (length [10005%Z] ≤ length ["com.d"%string; "com.e"%string])%nat)
    by (simpl; lia).
  split; [exact Hrun|]. split; [exact H1|]. split; [exact H2|].
  exact (X3_updateMap_replaces_map 210 tight_run tight_run_end
           300 [10005] [7; 8] ["com.d"; "com.e"]%string Hrun H1 H2).
Defined.

(** X4 at the end of [distinct_run]. *)
Lemma X4_witness :
  run distinct_run (UidMap_new 0) = Some distinct_run_end ∧
  ∃ s', updateApp 300 "com.d" 10005 7 distinct_run_end = Some s' ∧
        hasApp 10005 "com.d" s' = true ∧ getAppVersion 10005 "com.d" s' = 7 ∧
        ∀ u n, (u, n) ≠ (10005, "com.d"%string) →
               hasApp u n s' = hasApp u n distinct_run_end ∧
               getAppVersion u n s' = getAppVersion u n distinct_run_end.
Proof.
  assert (Hrun : run distinct_run (UidMap_new 0) = Some distinct_run_end)
    by (vm_compute; reflexivity).
  split; [exact Hrun|].
  exact (X4_updateApp_then_lookup 0 distinct_run distinct_run_end
           300 "com.d" 10005 7 Hrun).
Defined.

(** X5 at the end of [distinct_run], for an application that is there. *)
Lemma X5_witness :
  Forall distinct_packages distinct_run ∧
  run distinct_run (UidMap_new 0) = Some distinct_run_end ∧
  ∃ s', removeApp 300 "com.a" 10001 distinct_run_end = Some s' ∧
        hasApp 10001 "com.a" s' = false ∧ getAppVersion 10001 "com.a" s' = 0 ∧
        ∀ u n, (u, n) ≠ (10001, "com.a"%string) →
               hasApp u n s' = hasApp u n distinct_run_end ∧
               getAppVersion u n s' = getAppVersion u n distinct_run_end.
Proof.
  assert (H1 : Forall distinct_packages distinct_run).
  { repeat (apply Forall_cons; split; [simpl|]); try exact I; [|apply Forall_nil_2].
    apply (bool_decide_unpack _). reflexivity. }
  assert (Hrun : run distinct_run (UidMap_new 0) = Some distinct_run_end)
    by (vm_compute; reflexivity).
  split_and!; [exact H1|exact Hrun|].
  exact (X5_removeApp_then_lookup 0 distinct_run distinct_run_end
           300 "com.a" 10001 H1 Hrun).
Defined.

(** X8 at [wide_change_state]: the uid 2^32 + 8 is written as 8 and the
    version 2^31 as -2^31. *)
Lemma X8_witness :
  changes (appendUidMap 200 1 wide_change_state).1 =
  [ChangeRecord.mk false 100 "com.a" 8 (-2147483648)].
Proof.
  exact (eq_trans (X8_reported_changes 200 1 wide_change_state) eq_refl).
Defined.

(** X9 at the end of [mixed_snapshots_run]: the log holds the snapshots
    of 100 and 200 and the first configuration was last served at 150;
    its report at 250 has the snapshot of 200 and not the one of 100. *)
Lemma X9_witness :
  run mixed_snapshots_run (UidMap_new 0) = Some mixed_snapshots_run_end ∧
  SnapshotRecord.timestampNs <$> mSnapshots mixed_snapshots_run_end = [100; 200] ∧
  wm_find 1 (mLastUpdatePerConfigKey mixed_snapshots_run_end) = Some 150 ∧
  SnapshotRecord.timestampNs <$>
    snapshots (appendUidMap 250 1 mixed_snapshots_run_end).1 = [200] ∧
  Z.of_nat (length (mSnapshots mixed_snapshots_run_end)) < size_t_modulus ∧
  snapshots (appendUidMap 250 1 mixed_snapshots_run_end).1 =
  if decide (length (mSnapshots mixed_snapshots_run_end) = 1%nat)
  then mSnapshots mixed_snapshots_run_end
  else filter (λ r, default 0 (wm_find 1 (mLastUpdatePerConfigKey mixed_snapshots_run_end))
                    < SnapshotRecord.timestampNs r) (mSnapshots mixed_snapshots_run_end).
Proof.
  assert (H1 : Z.of_nat (length (mSnapshots mixed_snapshots_run_end)) < size_t_modulus)
    by (vm_compute; reflexivity).
  split; [vm_compute; reflexivity|]. split; [vm_compute; reflexivity|].
  split; [vm_compute; reflexivity|]. split; [vm_compute; reflexivity|].
  split; [exact H1|].
  exact (X9_reported_snapshots 250 1 mixed_snapshots_run_end H1).
Defined.

(** X10 at [example_state], served at 200 and again at 250. *)
Lemma X10_witness :
  Forall (λ r, ChangeRecord.timestampNs r ≤ 200) (mChanges example_state) ∧
  changes (appendUidMap 250 1 (appendUidMap 200 1 example_state).2).1 = [].
Proof.
  assert (H1 : Forall (λ r, ChangeRecord.timestampNs r ≤ 200) (mChanges example_state)).
  { repeat (apply Forall_cons; split; [simpl; lia|]). apply Forall_nil_2. }
  split; [exact H1|].
  exact (X10_second_report_has_no_changes 200 250 1 example_state H1).
Defined.

(** X11 at [waiting_state]: the first configuration is served at 150
    while the second has never been served. *)
Lemma X11_witness :
  (2 : Z) ≠ 1 ∧ ((2 : Z), -1) ∈ mLastUpdatePerConfigKey waiting_state ∧
  Forall (λ kv : Z * Z, -1 ≤ kv.2) (mLastUpdatePerConfigKey waiting_state) ∧
  -1 ≤ 150 ∧
  let s' := (appendUidMap 150 1 waiting_state).2 in
  mChanges s' = mChanges waiting_state ∧ mSnapshots s' = mSnapshots waiting_state ∧
  mBytesUsed s' = mBytesUsed waiting_state ∧ mMap s' = mMap waiting_state.
Proof.
  assert (H1 : (2 : Z) ≠ 1) by discriminate.
  assert (H2 : ((2 : Z), -1) ∈ mLastUpdatePerConfigKey waiting_state).
  { simpl. apply elem_of_cons. right. apply elem_of_cons. by left. }
  assert (H3 : Forall (λ kv : Z * Z, -1 ≤ kv.2) (mLastUpdatePerConfigKey waiting_state)).
  { repeat (apply Forall_cons; split; [simpl; lia|]). apply Forall_nil_2. }
  assert (H4 : -1 ≤ 150) by lia.
  split_and!; [exact H1|exact H2|exact H3|exact H4|].
  exact (X11_never_served_key_holds_back_purge 150 1 2 waiting_state H1 H2 H3 H4).
Defined.

(** X12 at [registered_state]: the first report of a configuration on a
    new object, at 5; the least last report goes from -1 to 5 and the log
    gets the snapshot of the empty map. *)
Lemma X12_witness :
  mSnapshots registered_state = [] ∧ mChanges registered_state = [] ∧
  no_zero (mLastUpdatePerConfigKey registered_state) ∧ 5 ≠ 0 ∧
  let s' := (appendUidMap 5 1 registered_state).2 in
  (appendUidMap 5 1 registered_state).1 = mkReport [] [] ∧
  wm_find 1 (mLastUpdatePerConfigKey s') = Some 5 ∧
  mChanges s' = [] ∧
  mSnapshots s' = [SnapshotRecord.mk 5 (proto_package_info [])].
Proof.
  assert (H3 : no_zero (mLastUpdatePerConfigKey registered_state))
    by (repeat (apply Forall_cons; split; [discriminate|]); apply Forall_nil_2).
  assert (H4 : 5 ≠ 0) by discriminate.
  assert (Hm : is_min_watermark (-1) (mLastUpdatePerConfigKey registered_state)).
  { split; [exists 1; apply elem_of_cons; by left|].
    intros k v [[= -> ->]|Hin]%elem_of_cons; [done|by apply elem_of_nil in Hin]. }
  assert (Hm' : is_min_watermark 5
                  (mLastUpdatePerConfigKey (appendUidMap 5 1 registered_state).2)).
  { split; [exists 1; apply elem_of_cons; by left|].
    intros k v [[= -> ->]|Hin]%elem_of_cons; [done|by apply elem_of_nil in Hin]. }
  split; [reflexivity|]. split; [reflexivity|]. split; [exact H3|]. split; [exact H4|].
  destruct (X12_report_on_empty_logs 5 1 registered_state eq_refl eq_refl H3 H4)
    as (Hrep & Hkey & _ & Hch & _ & Hlog).
  cbv zeta. split; [exact Hrep|]. split; [exact Hkey|]. split; [exact Hch|].
  exact (Hlog (-1) 5 Hm Hm').
Defined.

(** X13 at the end of [tight_run]: the eviction that the new change
    sets off takes the snapshot and the change of 120, and the new change
    is the last of the three that stay. *)
Lemma X13_witness :
  run tight_run (UidMap_new 210) = Some tight_run_end ∧
  to_size_t kBytesChangeRecord ≤ limit tight_run_end ∧
  limit tight_run_end < mBytesUsed tight_run_end + kBytesChangeRecord ∧
  (fmap ChangeRecord.timestampNs ∘ mChanges <$>
     updateApp 250 "com.d" 10005 7 tight_run_end) = Some [160; 200; 250] ∧
  (∃ s', updateApp 250 "com.d" 10005 7 tight_run_end = Some s' ∧
         last (mChanges s') = Some (ChangeRecord.mk false 250 "com.d" 10005 7)) ∧
  (∃ s', removeApp 250 "com.d" 10005 tight_run_end = Some s' ∧
         last (mChanges s') = Some (ChangeRecord.mk true 250 "com.d" 10005 0)).
Proof.
  assert (H2 : to_size_t kBytesChangeRecord ≤ limit tight_run_end)
    by (vm_compute; discriminate).
  assert (Hrun : run tight_run (UidMap_new 210) = Some tight_run_end)
    by (vm_compute; reflexivity).
  split; [exact Hrun|]. split; [exact H2|].
  split; [vm_compute; reflexivity|]. split; [vm_compute; reflexivity|].
  exact (X13_new_change_survives 210 tight_run tight_run_end
           250 "com.d" 10005 7 Hrun H2).
Defined.

(** X16 at the end of [two_snapshots_run], where the first configuration
    was last served at 300 and the second never. *)
Lemma X16_witness :
  run two_snapshots_run (UidMap_new 0) = Some two_snapshots_run_end ∧
  wm_find 1 (mLastUpdatePerConfigKey two_snapshots_run_end) = Some 300 ∧
  wm_find 2 (mLastUpdatePerConfigKey two_snapshots_run_end) = Some (-1) ∧
  NoDup (mLastUpdatePerConfigKey two_snapshots_run_end).*1 ∧
  wm_find 1 (mLastUpdatePerConfigKey (OnConfigRemoved 1 two_snapshots_run_end)) = None ∧
  (∀ k, k ≠ 1 →
        wm_find k (mLastUpdatePerConfigKey (OnConfigRemoved 1 two_snapshots_run_end)) =
        wm_find k (mLastUpdatePerConfigKey two_snapshots_run_end)) ∧
  wm_find 1 (mLastUpdatePerConfigKey (OnConfigUpdated 1 two_snapshots_run_end)) = Some (-1).
Proof.
  assert (Hrun : run two_snapshots_run (UidMap_new 0) = Some two_snapshots_run_end)
    by (vm_compute; reflexivity).
  split; [exact Hrun|]. split; [vm_compute; reflexivity|].
  split; [vm_compute; reflexivity|].
  exact (X16_config_keys 0 two_snapshots_run two_snapshots_run_end 1 Hrun).
Defined.
